(** * mpr: forward-mode dual numbers ([inc/gpu_deriv.hpp])

    A shallow embedding of [struct Deriv] and of its operator overloads,
    followed by the properties of the dual-number arithmetic.

    The header computes with the C++ type [float].  Its functions are
    embedded once, over an interface of scalar operations, and read at two
    instances:

    - [binary32]: IEEE-754 single precision, round to nearest even, as
      specified by [SpecFloat] with a 24 bit significand.  This is the
      arithmetic the program runs; each C++ operator is one correctly
      rounded operation (no contraction into fused multiply-add).
    - [exact]: the real numbers, the arithmetic in which the rules of
      calculus are stated.

    The functions of the CUDA math library ([sqrtf], [sinf], [powf], ...)
    are not part of the repository.  At [binary32] they are left abstract
    (any instance of [Libm]); at [exact] they are the real functions they
    approximate. *)

From Stdlib Require Import ZArith Bool Lia List.
From Stdlib Require Import SpecFloat.
From Stdlib Require Import Reals Lra.

(** ** Scalar interface *)

(** The built-in operators of [float] that the header uses. [lit] is the
    value of an integral literal: [0.0f], and the [int] literals [1] and
    [2] after the usual arithmetic conversion to [float]. *)
Class Arith (float : Type) : Type := {
  lit : Z -> float;
  fneg : float -> float;
  fadd : float -> float -> float;
  fsub : float -> float -> float;
  fmul : float -> float -> float;
  fdiv : float -> float -> float;
  flt : float -> float -> bool;
  fge : float -> float -> bool
}.

(** The functions of the CUDA device math library that the header
    calls. *)
Class Libm (float : Type) : Type := {
  powf : float -> float -> float;
  sqrtf : float -> float;
  atanf : float -> float;
  acosf : float -> float;
  asinf : float -> float;
  expf : float -> float;
  cosf : float -> float;
  sinf : float -> float;
  logf : float -> float
}.

Declare Scope float_scope.
Delimit Scope float_scope with flt.
Notation "a + b" := (fadd a b) : float_scope.
Notation "a - b" := (fsub a b) : float_scope.
Notation "a * b" := (fmul a b) : float_scope.
Notation "a / b" := (fdiv a b) : float_scope.
Notation "- a" := (fneg a) : float_scope.
Notation "a <? b" := (flt a b) : float_scope.
Notation "a >=? b" := (fge a b) : float_scope.

(** ** IEEE-754 binary32 *)

Module binary32.

Definition prec : Z := 24.
Definition emax : Z := 128.

Definition float : Type := spec_float.

(** Conversion of an integer to the nearest [float]. *)
Definition of_Z (n : Z) : float := binary_normalize prec emax n 0 false.

Definition NaN : float := S754_nan.
Definition pos_zero : float := S754_zero false.
Definition neg_zero : float := S754_zero true.

(** [a == b] of the language. *)
Definition eqb (a b : float) : bool := SFeqb a b.
(** [a <= b] of the language. *)
Definition leb (a b : float) : bool := SFleb a b.

Definition is_nan (a : float) : bool :=
  match a with S754_nan => true | _ => false end.

Definition is_zero (a : float) : bool :=
  match a with S754_zero _ => true | _ => false end.

(** Neither an infinity nor a NaN. *)
Definition is_finite (a : float) : bool :=
  match a with S754_zero _ | S754_finite _ _ _ => true | _ => false end.

(** A value of the type: the significand of a finite number is in
    canonical form and the exponent is in range. *)
Definition valid (a : float) : bool := valid_binary prec emax a.

(** Two floats denote the same value: they are the same datum, or they
    compare equal under [==] (which identifies the two zeros). *)
Definition same_value (a b : float) : Prop := a = b \/ eqb a b = true.

#[global] Instance arith : Arith float := {|
  lit := of_Z;
  fneg := SFopp;
  fadd := SFadd prec emax;
  fsub := SFsub prec emax;
  fmul := SFmul prec emax;
  fdiv := SFdiv prec emax;
  flt := SFltb;
  fge := fun a b => SFleb b a
|}.

End binary32.

(** ** Exact real arithmetic *)

Module exact.

Definition ltb (a b : R) : bool := if Rlt_dec a b then true else false.
Definition geb (a b : R) : bool := if Rge_dec a b then true else false.

(** [pow(x, y)]: the integer power when [y] is an integer, [exp (y ln x)]
    otherwise. *)
Definition pow (a b : R) : R :=
  if Req_dec_T b (IZR (Int_part b)) then powerRZ a (Int_part b)
  else Rpower a b.

#[global] Instance arith : Arith R := {|
  lit := IZR;
  fneg := Ropp;
  fadd := Rplus;
  fsub := Rminus;
  fmul := Rmult;
  fdiv := Rdiv;
  flt := ltb;
  fge := geb
|}.

#[global] Instance libm : Libm R := {|
  powf := pow;
  sqrtf := sqrt;
  atanf := atan;
  acosf := acos;
  asinf := asin;
  expf := exp;
  cosf := cos;
  sinf := sin;
  logf := ln
|}.

End exact.

(** ** [namespace mpr]: [struct Deriv] and its operators *)

Module mpr.

Section Deriv.

Context {float : Type} {A : Arith float} {L : Libm float}.

Local Open Scope float_scope.

(** CUDA's [float4] and its constructor function [make_float4(x, y, z, w)]. *)
Record float4 : Type := make_float4 { x : float; y : float; z : float; w : float }.

Record Deriv : Type := { v : float4 }.

(** [Deriv()] *)
Definition Deriv_0 : Deriv :=
  {| v := make_float4 (lit 0) (lit 0) (lit 0) (lit 0) |}.

(** [explicit Deriv(float f)] *)
Definition Deriv_1 (f : float) : Deriv :=
  {| v := make_float4 (lit 0) (lit 0) (lit 0) f |}.

(** [Deriv(float v, float dx, float dy, float dz)]; a braced return
    [{v, dx, dy, dz}] of the header calls this constructor. *)
Definition Deriv_4 (v0 dx0 dy0 dz0 : float) : Deriv :=
  {| v := make_float4 dx0 dy0 dz0 v0 |}.

Definition value (a : Deriv) : float := w (v a).
Definition dx (a : Deriv) : float := x (v a).
Definition dy (a : Deriv) : float := y (v a).
Definition dz (a : Deriv) : float := z (v a).

(** The free functions [value(const Deriv&)] and [value(const float&)]. *)
Definition value_of_Deriv (a : Deriv) : float := value a.
Definition value_of_float (a : float) : float := a.

(** [operator-(const Deriv&)] *)
Definition operator_neg (a : Deriv) : Deriv :=
  Deriv_4 (- value a) (- dx a) (- dy a) (- dz a).

(** [operator+] *)
Definition operator_add (a b : Deriv) : Deriv :=
  Deriv_4 (value a + value b)
          (dx a + dx b)
          (dy a + dy b)
          (dz a + dz b).

Definition operator_add_Df (a : Deriv) (b : float) : Deriv :=
  Deriv_4 (value a + b) (dx a) (dy a) (dz a).

Definition operator_add_fD (b : float) (a : Deriv) : Deriv :=
  operator_add_Df a b.

(** [operator*] *)
Definition operator_mul (a b : Deriv) : Deriv :=
  Deriv_4 (value a * value b)
          (dx a * value b + dx b * value a)
          (dy a * value b + dy b * value a)
          (dz a * value b + dz b * value a).

Definition operator_mul_Df (a : Deriv) (b : float) : Deriv :=
  Deriv_4 (value a * b)
          (dx a * b)
          (dy a * b)
          (dz a * b).

Definition operator_mul_fD (a : float) (b : Deriv) : Deriv :=
  operator_mul_Df b a.

(** [operator/] *)
Definition operator_div (a b : Deriv) : Deriv :=
  let d := powf (value b) (lit 2) in
  Deriv_4 (value a / value b)
          ((value b * dx a - value a * dx b) / d)
          ((value b * dy a - value a * dy b) / d)
          ((value b * dz a - value a * dz b) / d).

Definition operator_div_Df (a : Deriv) (b : float) : Deriv :=
  Deriv_4 (value a / b) (dx a / b) (dy a / b) (dz a / b).

Definition operator_div_fD (a : float) (b : Deriv) : Deriv :=
  let d := powf (value b) (lit 2) in
  Deriv_4 (a / value b)
          (- a * dx b / d)
          (- a * dy b / d)
          (- a * dz b / d).

(** [min] *)
Definition min (a b : Deriv) : Deriv :=
  if value a <? value b then a else b.

Definition min_Df (a : Deriv) (b : float) : Deriv :=
  if value a <? b then a else Deriv_1 b.

Definition min_fD (a : float) (b : Deriv) : Deriv :=
  min_Df b a.

(** [max] *)
Definition max (a b : Deriv) : Deriv :=
  if value a >=? value b then a else b.

Definition max_Df (a : Deriv) (b : float) : Deriv :=
  if value a >=? b then a else Deriv_1 b.

Definition max_fD (a : float) (b : Deriv) : Deriv :=
  max_Df b a.

Definition square (a : Deriv) : Deriv :=
  Deriv_4 (value a * value a)
          (dx a * value a * lit 2)
          (dy a * value a * lit 2)
          (dz a * value a * lit 2).

Definition abs (a : Deriv) : Deriv :=
  if value a <? lit 0 then operator_neg a else a.

(** [operator-] *)
Definition operator_sub (a b : Deriv) : Deriv :=
  Deriv_4 (value a - value b)
          (dx a - dx b)
          (dy a - dy b)
          (dz a - dz b).

Definition operator_sub_Df (a : Deriv) (b : float) : Deriv :=
  Deriv_4 (value a - b) (dx a) (dy a) (dz a).

Definition operator_sub_fD (a : float) (b : Deriv) : Deriv :=
  Deriv_4 (a - value b) (- dx b) (- dy b) (- dz b).

Definition sqrt (a : Deriv) : Deriv :=
  let d := lit 2 * sqrtf (value a) in
  Deriv_4 (sqrtf (value a)) (dx a / d) (dy a / d) (dz a / d).

Definition atan (a : Deriv) : Deriv :=
  let d := value a * value a + lit 1 in
  Deriv_4 (atanf (value a)) (dx a / d) (dy a / d) (dz a / d).

Definition acos (a : Deriv) : Deriv :=
  let d := - sqrtf (lit 1 - value a * value a) in
  Deriv_4 (acosf (value a)) (dx a / d) (dy a / d) (dz a / d).

Definition asin (a : Deriv) : Deriv :=
  let d := sqrtf (lit 1 - value a * value a) in
  Deriv_4 (asinf (value a)) (dx a / d) (dy a / d) (dz a / d).

Definition exp (a : Deriv) : Deriv :=
  let v0 := expf (value a) in
  Deriv_4 v0 (v0 * dx a) (v0 * dy a) (v0 * dz a).

Definition cos (a : Deriv) : Deriv :=
  let s := - sinf (value a) in
  Deriv_4 (cosf (value a)) (s * dx a) (s * dy a) (s * dz a).

Definition sin (a : Deriv) : Deriv :=
  let c := cosf (value a) in
  Deriv_4 (sinf (value a)) (c * dx a) (c * dy a) (c * dz a).

Definition log (a : Deriv) : Deriv :=
  let v0 := value a in
  Deriv_4 (logf v0) (dx a / v0) (dy a / v0) (dz a / v0).

End Deriv.

Arguments float4 float : clear implicits.
Arguments Deriv float : clear implicits.

End mpr.

(** ** Vocabulary of the statements *)

Section Rules.

Context {float : Type} {A : Arith float}.

(** Each partial derivative of [r] is [g] of the same partial of [a]. *)
Definition partials1 (r : mpr.Deriv float) (g : float -> float)
  (a : mpr.Deriv float) : Prop :=
  mpr.dx r = g (mpr.dx a) /\
  mpr.dy r = g (mpr.dy a) /\
  mpr.dz r = g (mpr.dz a).

(** Each partial derivative of [r] is [g] of the same partials of [a]
    and [b]. *)
Definition partials2 (r : mpr.Deriv float) (g : float -> float -> float)
  (a b : mpr.Deriv float) : Prop :=
  mpr.dx r = g (mpr.dx a) (mpr.dx b) /\
  mpr.dy r = g (mpr.dy a) (mpr.dy b) /\
  mpr.dz r = g (mpr.dz a) (mpr.dz b).

(** All four components of [r] and [s] are related by [P]. *)
Definition componentwise (P : float -> float -> Prop)
  (r s : mpr.Deriv float) : Prop :=
  P (mpr.value r) (mpr.value s) /\
  P (mpr.dx r) (mpr.dx s) /\
  P (mpr.dy r) (mpr.dy s) /\
  P (mpr.dz r) (mpr.dz s).

(** All four components of [a] satisfy [p]. *)
Definition components (p : float -> bool) (a : mpr.Deriv float) : Prop :=
  p (mpr.value a) = true /\
  p (mpr.dx a) = true /\
  p (mpr.dy a) = true /\
  p (mpr.dz a) = true.


End Rules.

(** In exact arithmetic, [op] obeys the chain rule for the primitive [f]
    at [a]: the value is [f] of the value, and every partial derivative is
    the partial of [a] multiplied by [k], the derivative of [f] at the
    value of [a]. *)
Definition chain_rule (op : mpr.Deriv R -> mpr.Deriv R) (f : R -> R)
  (a : mpr.Deriv R) : Prop :=
  mpr.value (op a) = f (mpr.value a) /\
  exists k : R,
    derivable_pt_lim f (mpr.value a) k /\
    partials1 (op a) (fun d => (k * d)%R) a.

(** The three accessors of the partial derivatives, one per axis. *)
Definition axis (d : mpr.Deriv R -> R) : Prop :=
  d = mpr.dx \/ d = mpr.dy \/ d = mpr.dz.

(** Along the axis read by [d], the dual [a] carries the value and the
    derivative at [t] of the function [f]. *)
Definition carries (d : mpr.Deriv R -> R) (a : mpr.Deriv R) (f : R -> R)
  (t : R) : Prop :=
  mpr.value a = f t /\ derivable_pt_lim f t (d a).


(** The same dual up to the representation of zero. *)
Definition same_dual :
  mpr.Deriv binary32.float -> mpr.Deriv binary32.float -> Prop :=
  componentwise binary32.same_value.

(** [r] is the smaller of [u] and [w]: one of them, and [<=] both. *)
Definition smaller_of (r u w : binary32.float) : Prop :=
  (r = u \/ r = w) /\ binary32.leb r u = true /\ binary32.leb r w = true.

(** [r] is the larger of [u] and [w]: one of them, and [>=] both. *)
Definition larger_of (r u w : binary32.float) : Prop :=
  (r = u \/ r = w) /\ binary32.leb u r = true /\ binary32.leb w r = true.

(** [min] returns an operand whose value is the smaller of the two values,
    [max] an operand whose value is the larger. *)
Definition selects_extremum (a b : mpr.Deriv binary32.float) : Prop :=
  (mpr.min a b = a \/ mpr.min a b = b) /\
  smaller_of (mpr.value (mpr.min a b)) (mpr.value a) (mpr.value b) /\
  (mpr.max a b = a \/ mpr.max a b = b) /\
  larger_of (mpr.value (mpr.max a b)) (mpr.value a) (mpr.value b).

(** The two duals differ in a derivative field. *)
Definition differ_in_derivative (a b : mpr.Deriv binary32.float) : Prop :=
  mpr.dx a <> mpr.dx b \/ mpr.dy a <> mpr.dy b \/ mpr.dz a <> mpr.dz b.

(** The [(Deriv, float)] overloads give what the [(Deriv, Deriv)]
    operators give on [a] and [Deriv(b)]. *)
Definition promotes_Df (a : mpr.Deriv binary32.float) (b : binary32.float) : Prop :=
  same_dual (mpr.operator_add_Df a b) (mpr.operator_add a (mpr.Deriv_1 b)) /\
  same_dual (mpr.operator_sub_Df a b) (mpr.operator_sub a (mpr.Deriv_1 b)) /\
  same_dual (mpr.operator_mul_Df a b) (mpr.operator_mul a (mpr.Deriv_1 b)) /\
  same_dual (mpr.min_Df a b) (mpr.min a (mpr.Deriv_1 b)) /\
  same_dual (mpr.max_Df a b) (mpr.max a (mpr.Deriv_1 b)).

(** The [(float, Deriv)] arithmetic overloads give what the
    [(Deriv, Deriv)] operators give on [Deriv(b)] and [a]. *)
Definition promotes_fD_arith (b : binary32.float) (a : mpr.Deriv binary32.float) : Prop :=
  same_dual (mpr.operator_add_fD b a) (mpr.operator_add (mpr.Deriv_1 b) a) /\
  same_dual (mpr.operator_sub_fD b a) (mpr.operator_sub (mpr.Deriv_1 b) a) /\
  same_dual (mpr.operator_mul_fD b a) (mpr.operator_mul (mpr.Deriv_1 b) a).

(** The same for the [(float, Deriv)] overloads of [min] and [max]. *)
Definition promotes_fD_select (b : binary32.float) (a : mpr.Deriv binary32.float) : Prop :=
  same_dual (mpr.min_fD b a) (mpr.min (mpr.Deriv_1 b) a) /\
  same_dual (mpr.max_fD b a) (mpr.max (mpr.Deriv_1 b) a).

(** All the mixed overloads agree with promotion of the [float]. *)
Definition promotes (a : mpr.Deriv binary32.float) (b : binary32.float) : Prop :=
  promotes_Df a b /\ promotes_fD_arith b a /\ promotes_fD_select b a.

(** An instance of the math library on which the operators can be run:
    [sqrtf] is the correctly rounded IEEE square root and [powf (a, 2)]
    the rounded square; the remaining functions are only required to
    return a [float], and return their argument. *)
Definition run_libm : Libm binary32.float := {|
  powf := fun a _ => SFmul binary32.prec binary32.emax a a;
  sqrtf := SFsqrt binary32.prec binary32.emax;
  atanf := fun a => a;
  acosf := fun a => a;
  asinf := fun a => a;
  expf := fun a => a;
  cosf := fun a => a;
  sinf := fun a => a;
  logf := fun a => a
|}.

(** ** The operators of the header, by signature *)

Section Operators.

Context {float : Type} {A : Arith float} {L : Libm float}.

Definition unary_operators : list (mpr.Deriv float -> mpr.Deriv float) :=
  mpr.operator_neg :: mpr.square :: mpr.abs :: mpr.sqrt :: mpr.atan ::
  mpr.acos :: mpr.asin :: mpr.exp :: mpr.cos :: mpr.sin :: mpr.log :: nil.

Definition binary_operators :
  list (mpr.Deriv float -> mpr.Deriv float -> mpr.Deriv float) :=
  mpr.operator_add :: mpr.operator_mul :: mpr.operator_div :: mpr.min ::
  mpr.max :: mpr.operator_sub :: nil.

Definition Df_operators :
  list (mpr.Deriv float -> float -> mpr.Deriv float) :=
  mpr.operator_add_Df :: mpr.operator_mul_Df :: mpr.operator_div_Df ::
  mpr.min_Df :: mpr.max_Df :: mpr.operator_sub_Df :: nil.

Definition fD_operators :
  list (float -> mpr.Deriv float -> mpr.Deriv float) :=
  mpr.operator_add_fD :: mpr.operator_mul_fD :: mpr.operator_div_fD ::
  mpr.min_fD :: mpr.max_fD :: mpr.operator_sub_fD :: nil.

(** One of the three accessors of a partial derivative. *)
Definition accessor (d : mpr.Deriv float -> float) : Prop :=
  d = mpr.dx \/ d = mpr.dy \/ d = mpr.dz.

(** [a] and [a'] have the same value and the same partial along [d]. *)
Definition agree (d : mpr.Deriv float -> float)
  (a a' : mpr.Deriv float) : Prop :=
  mpr.value a = mpr.value a' /\ d a = d a'.

End Operators.

(** * Properties *)

(** ** Rounding: doubling is exact *)

Section Doubling.

Import binary32.
Local Open Scope Z_scope.

Lemma iter_pos_nat {T : Type} (f : T -> T) (p : positive) (t : T) :
  SpecFloat.iter_pos f p t = Nat.iter (Pos.to_nat p) f t.
Proof.
  revert t.
  induction p as [p IH | p IH | ]; intro t; cbn [SpecFloat.iter_pos].
  - rewrite !IH, Pos2Nat.inj_xI, <- Nat.iter_add, <- Nat.iter_succ_r.
    f_equal. lia.
  - rewrite !IH, Pos2Nat.inj_xO, <- Nat.iter_add.
    f_equal. lia.
  - reflexivity.
Qed.

Lemma shr_nat (mrs : shr_record) (e n : Z) :
  shr mrs e n = (Nat.iter (Z.to_nat n) shr_1 mrs, e + Z.max n 0).
Proof.
  destruct n as [| p | p]; simpl.
  - now rewrite Z.add_0_r.
  - rewrite iter_pos_nat. f_equal.
  - now rewrite Z.add_0_r.
Qed.

Lemma shl_align_nat (m : positive) (e t : Z) :
  shl_align m e t = (Nat.iter (Z.to_nat (e - t)) xO m, Z.min e t).
Proof.
  unfold shl_align.
  destruct (t - e) as [| d | d] eqn:E.
  - replace (e - t) with 0 by lia. simpl. f_equal. lia.
  - replace (Z.to_nat (e - t)) with O by lia. simpl. f_equal. lia.
  - replace (e - t) with (Zpos d) by lia.
    rewrite Pos2Nat.inj_iter. simpl. f_equal. lia.
Qed.

Lemma digits2_pos_shift (k : nat) (m : positive) :
  Zpos (digits2_pos (Nat.iter k xO m)) = Zpos (digits2_pos m) + Z.of_nat k.
Proof.
  induction k as [| k IH].
  - simpl. lia.
  - rewrite Nat.iter_succ. cbn [digits2_pos]. rewrite Pos2Z.inj_succ, IH. lia.
Qed.

(** Shifting right what was shifted left loses nothing: the round and
    sticky bits stay clear. *)
Lemma shr_1_shift (j i k : nat) (m : positive) :
  k = (j + i)%nat ->
  Nat.iter j shr_1 (Build_shr_record (Zpos (Nat.iter k xO m)) false false)
  = Build_shr_record (Zpos (Nat.iter i xO m)) false false.
Proof.
  intros ->.
  induction j as [| j IH].
  - reflexivity.
  - rewrite Nat.iter_succ_r. cbn [Nat.add]. rewrite Nat.iter_succ.
    cbn [shr_1 orb]. exact IH.
Qed.

(** Truncating [M * 2^k] at exponent [E - k] gives what aligning and
    truncating [M] at exponent [E] gives. *)
Lemma shr_fexp_scaled (M : positive) (E : Z) (k : nat) :
  E - Z.of_nat k <= fexp prec emax (Zpos (digits2_pos M) + E) ->
  shr_fexp prec emax (Zpos (Nat.iter k xO M)) (E - Z.of_nat k) loc_Exact
  = (let '(mz, ez) :=
       shl_align M E (fexp prec emax (Zpos (digits2_pos M) + E)) in
     shr_fexp prec emax (Zpos mz) ez loc_Exact).
Proof.
  intro Hk.
  rewrite shl_align_nat.
  set (T := fexp prec emax (Zpos (digits2_pos M) + E)) in *.
  unfold shr_fexp. cbn [Zdigits2 shr_record_of_loc].
  rewrite !digits2_pos_shift.
  replace (Zpos (digits2_pos M) + Z.of_nat k + (E - Z.of_nat k))
    with (Zpos (digits2_pos M) + E) by lia.
  replace (Zpos (digits2_pos M) + Z.of_nat (Z.to_nat (E - T)) + Z.min E T)
    with (Zpos (digits2_pos M) + E) by lia.
  fold T. rewrite !shr_nat.
  f_equal; [| lia].
  destruct (Z_le_gt_dec E T) as [Hle | Hgt].
  - replace (Z.to_nat (E - T)) with O by lia. cbn [Nat.iter nat_rect].
    replace (Z.min E T) with E by lia.
    replace (Z.to_nat (T - (E - Z.of_nat k)))
      with (Z.to_nat (T - E) + k)%nat by lia.
    rewrite Nat.iter_add.
    f_equal. apply (shr_1_shift k 0). lia.
  - replace (Z.min E T) with T by lia.
    replace (T - T) with 0 by lia. cbn [Z.to_nat Nat.iter nat_rect].
    apply shr_1_shift. lia.
Qed.

(** [p * 2] and [p + p] are the same float, for every [p]: both round
    the same real number, also when it overflows. *)
Lemma mul_two_add_self (p : float) :
  SFmul prec emax p (of_Z 2) = SFadd prec emax p p.
Proof.
  destruct p as [s | s | | s m e];
    try (destruct s; reflexivity); try reflexivity.
  change (of_Z 2) with (S754_finite false 8388608 (-22)).
  cbn [SFmul SFadd].
  rewrite xorb_false_r, Z.min_id.
  assert (Hal : shl_align m e e = (m, e)).
  { unfold shl_align. now rewrite Z.sub_diag. }
  rewrite Hal. cbn [fst].
  assert (Hsum : cond_Zopp s (Zpos m) + cond_Zopp s (Zpos m)
                 = cond_Zopp s (Zpos (xO m))).
  { destruct s; cbn; now rewrite Pos.add_diag. }
  rewrite Hsum.
  assert (Hbn : binary_normalize prec emax (cond_Zopp s (Zpos (xO m))) e false
                = binary_round prec emax s (xO m) e).
  { destruct s; reflexivity. }
  rewrite Hbn. unfold binary_round, binary_round_aux.
  rewrite Pos.mul_comm.
  change (Pos.mul 8388608 m) with (Nat.iter 22 xO (xO m)).
  change (e + -22) with (e - Z.of_nat 22).
  rewrite shr_fexp_scaled.
  - destruct (shl_align (xO m) e _) as [mz ez]. reflexivity.
  - unfold fexp, emin, prec, emax. cbn [digits2_pos]. lia.
Qed.

End Doubling.

(** ** Comparison of binary32 values *)

Section Comparison.

Import binary32.

Lemma compare_antisym (a b : float) :
  SFcompare b a = option_map CompOpp (SFcompare a b).
Proof.
  destruct a as [sa | sa | | sa ma ea], b as [sb | sb | | sb mb eb];
    try reflexivity;
    try (destruct sa; reflexivity);
    try (destruct sb; reflexivity);
    try (destruct sa, sb; reflexivity).
  cbn [SFcompare option_map].
  assert (Hm : Pos.compare_cont Eq mb ma = CompOpp (Pos.compare_cont Eq ma mb))
    by (symmetry; apply (Pos.compare_cont_antisym ma mb Eq)).
  rewrite (Z.compare_antisym ea eb), Hm.
  destruct sa, sb, (ea ?= eb)%Z; cbn; try reflexivity;
    destruct (Pos.compare_cont Eq ma mb); reflexivity.
Qed.

Lemma compare_refl (a : float) : is_nan a = false -> SFcompare a a = Some Eq.
Proof.
  destruct a as [s | s | | s m e]; cbn; intro H; try discriminate;
    try (destruct s; reflexivity).
  rewrite Z.compare_refl, Pos.compare_cont_refl. destruct s; reflexivity.
Qed.

(** Two numbers are ordered. *)
Lemma compare_defined (a b : float) :
  is_nan a = false -> is_nan b = false -> exists c, SFcompare a b = Some c.
Proof.
  destruct a as [sa | sa | | sa ma ea], b as [sb | sb | | sb mb eb];
    cbn; intros Ha Hb; try discriminate; eauto.
Qed.

Lemma leb_refl (a : float) : is_nan a = false -> leb a a = true.
Proof. intro H. unfold leb, SFleb. now rewrite compare_refl. Qed.

Lemma ltb_leb (a b : float) : SFltb a b = true -> leb a b = true.
Proof. unfold leb, SFleb, SFltb. now destruct (SFcompare a b) as [[]|]. Qed.

(** On numbers, [!(a < b)] is [b <= a]. *)
Lemma ltb_false_leb (a b : float) :
  is_nan a = false -> is_nan b = false ->
  SFltb a b = false -> leb b a = true.
Proof.
  intros Ha Hb. unfold leb, SFleb, SFltb. rewrite (compare_antisym a b).
  destruct (compare_defined a b Ha Hb) as [c ->]. now destruct c.
Qed.

(** On numbers, [!(a >= b)] is [a < b]. *)
Lemma leb_false_ltb (a b : float) :
  is_nan a = false -> is_nan b = false ->
  leb b a = false -> SFltb a b = true.
Proof.
  intros Ha Hb. unfold leb, SFleb, SFltb. rewrite (compare_antisym a b).
  destruct (compare_defined a b Ha Hb) as [c ->]. now destruct c.
Qed.

Lemma eqb_ltb_false (a b : float) : eqb a b = true -> SFltb a b = false.
Proof. unfold eqb, SFeqb, SFltb. now destruct (SFcompare a b) as [[]|]. Qed.

Lemma eqb_geb (a b : float) : eqb a b = true -> SFleb b a = true.
Proof.
  unfold eqb, SFeqb, SFleb. rewrite (compare_antisym a b).
  now destruct (SFcompare a b) as [[]|].
Qed.

Lemma eqb_sym (a b : float) : eqb b a = eqb a b.
Proof.
  unfold eqb, SFeqb. rewrite (compare_antisym a b).
  now destruct (SFcompare a b) as [[]|].
Qed.

(** Numbers that are not [==] are strictly ordered one way. *)
Lemma neq_ltb (a b : float) :
  is_nan a = false -> is_nan b = false -> eqb a b = false ->
  SFltb b a = negb (SFltb a b) /\
  SFleb b a = SFltb b a /\
  SFleb a b = SFltb a b.
Proof.
  intros Ha Hb. unfold eqb, SFeqb, SFleb, SFltb. rewrite (compare_antisym a b).
  destruct (compare_defined a b Ha Hb) as [c ->]. now destruct c.
Qed.

Lemma is_finite_not_nan (a : float) : is_finite a = true -> is_nan a = false.
Proof. now destruct a. Qed.

(** [a < 0.0f] holds exactly for the negative numbers other than [-0]. *)
Lemma ltb_zero (a : float) :
  SFltb a (of_Z 0) = true ->
  SFopp a = SFabs a /\ SFleb (of_Z 0) a = false /\ eqb a (of_Z 0) = false.
Proof.
  destruct a as [s | [] | | [] m e]; cbn; intro H; try discriminate; auto.
Qed.

Lemma not_ltb_zero (a : float) :
  SFltb a (of_Z 0) = false -> same_value a (SFabs a).
Proof.
  destruct a as [s | [] | | [] m e]; cbn; intro H; try discriminate;
    try (now left); now right.
Qed.

End Comparison.

(** ** Signed zeros, infinities and NaN in binary32 arithmetic *)

Section Arithmetic.

Import binary32.

Lemma same_value_refl (a : float) : same_value a a.
Proof. now left. Qed.

Lemma same_value_sym (a b : float) : same_value a b -> same_value b a.
Proof. intros [-> | H]; [now left | right; now rewrite eqb_sym]. Qed.

Lemma add_comm (a b : float) : SFadd prec emax a b = SFadd prec emax b a.
Proof.
  destruct a as [sa | sa | | sa ma ea], b as [sb | sb | | sb mb eb];
    try reflexivity; try (destruct sa, sb; reflexivity).
  cbn [SFadd]. now rewrite Z.min_comm, Z.add_comm.
Qed.

Lemma mul_comm (a b : float) : SFmul prec emax a b = SFmul prec emax b a.
Proof.
  destruct a as [sa | sa | | sa ma ea], b as [sb | sb | | sb mb eb];
    try reflexivity; try (destruct sa, sb; reflexivity).
  cbn [SFmul]. now rewrite xorb_comm, Pos.mul_comm, Z.add_comm.
Qed.

(** [a + 0] is [a], except that [-0 + +0] is [+0]. *)
Lemma add_zero_r (a : float) (s : bool) :
  same_value (SFadd prec emax a (S754_zero s)) a.
Proof.
  destruct a as [[] | [] | | [] m e], s; cbn; try (now left); now right.
Qed.

Lemma add_zero_l (a : float) (s : bool) :
  same_value (SFadd prec emax (S754_zero s) a) a.
Proof. rewrite add_comm. apply add_zero_r. Qed.

(** [a - 0.0f] is [a]. *)
Lemma sub_zero_r (a : float) : SFsub prec emax a (of_Z 0) = a.
Proof. now destruct a as [[] | [] | | [] m e]. Qed.

(** [0.0f - a] is [-a], except that [+0 - +0] is [+0]. *)
Lemma sub_zero_l (a : float) :
  same_value (SFsub prec emax (of_Z 0) a) (SFopp a).
Proof.
  destruct a as [[] | [] | | [] m e]; cbn; try (now left); now right.
Qed.

(** [0.0f * a] is a zero when [a] is finite. *)
Lemma mul_zero_l (a : float) :
  is_finite a = true -> is_zero (SFmul prec emax (of_Z 0) a) = true.
Proof. now destruct a as [[] | [] | | [] m e]. Qed.

Lemma is_zero_inv (a : float) : is_zero a = true -> exists s, a = S754_zero s.
Proof. destruct a; try discriminate. eauto. Qed.





Lemma same_dual_refl (a : mpr.Deriv float) : same_dual a a.
Proof. repeat split; apply same_value_refl. Qed.

Lemma same_dual_eq (a b : mpr.Deriv float) : a = b -> same_dual a b.
Proof. intros ->. apply same_dual_refl. Qed.

End Arithmetic.

(** ** The rules of calculus, in exact arithmetic *)

Section Exact.

Local Open Scope R_scope.

(** The divisor [powf (b, 2)] of the quotient rule is the square. *)
Lemma pow_two (b : R) : exact.pow b 2 = b * b.
Proof.
  unfold exact.pow.
  assert (H2 : Int_part 2 = 2%Z).
  { symmetry. apply Int_part_spec. lra. }
  rewrite H2. destruct (Req_dec_T 2 2) as [_ | N]; [| now elim N].
  change (powerRZ b 2) with (b * (b * 1)). ring.
Qed.

Lemma chain_rule_intro (op : mpr.Deriv R -> mpr.Deriv R) (f : R -> R)
  (a : mpr.Deriv R) (k : R) :
  mpr.value (op a) = f (mpr.value a) ->
  derivable_pt_lim f (mpr.value a) k ->
  mpr.dx (op a) = k * mpr.dx a ->
  mpr.dy (op a) = k * mpr.dy a ->
  mpr.dz (op a) = k * mpr.dz a ->
  chain_rule op f a.
Proof.
  intros Hv Hd Hx Hy Hz.
  split; [exact Hv | exists k; repeat split; assumption].
Qed.

(** The header divides by the reciprocal of the derivative. *)
Ltac by_reciprocal := cbn; unfold Rdiv; apply Rmult_comm.

Lemma chain_sin (a : mpr.Deriv R) : chain_rule mpr.sin sin a.
Proof.
  apply chain_rule_intro with (k := cos (mpr.value a)); try reflexivity.
  apply derivable_pt_lim_sin.
Qed.

Lemma chain_cos (a : mpr.Deriv R) : chain_rule mpr.cos cos a.
Proof.
  apply chain_rule_intro with (k := - sin (mpr.value a)); try reflexivity.
  apply derivable_pt_lim_cos.
Qed.

Lemma chain_exp (a : mpr.Deriv R) : chain_rule mpr.exp exp a.
Proof.
  apply chain_rule_intro with (k := exp (mpr.value a)); try reflexivity.
  apply derivable_pt_lim_exp.
Qed.

Lemma chain_atan (a : mpr.Deriv R) : chain_rule mpr.atan atan a.
Proof.
  apply chain_rule_intro with (k := / (mpr.value a * mpr.value a + 1));
    try reflexivity; try by_reciprocal.
  replace (mpr.value a * mpr.value a + 1) with (1 + mpr.value a ^ 2) by ring.
  apply derivable_pt_lim_atan.
Qed.

Lemma chain_sqrt (a : mpr.Deriv R) :
  0 < mpr.value a -> chain_rule mpr.sqrt sqrt a.
Proof.
  intro H.
  apply chain_rule_intro with (k := / (2 * sqrt (mpr.value a)));
    try reflexivity; try by_reciprocal.
  now apply derivable_pt_lim_sqrt.
Qed.

Lemma chain_log (a : mpr.Deriv R) :
  0 < mpr.value a -> chain_rule mpr.log ln a.
Proof.
  intro H.
  apply chain_rule_intro with (k := / mpr.value a);
    try reflexivity; try by_reciprocal.
  now apply derivable_pt_lim_ln.
Qed.

Lemma chain_asin (a : mpr.Deriv R) :
  -1 < mpr.value a < 1 -> chain_rule mpr.asin asin a.
Proof.
  intro H.
  apply chain_rule_intro with (k := / sqrt (1 - mpr.value a * mpr.value a));
    try reflexivity; try by_reciprocal.
  apply derive_pt_eq_1 with (pr := derivable_pt_asin _ H).
  rewrite derive_pt_asin. unfold Rsqr, Rdiv. ring.
Qed.

Lemma chain_acos (a : mpr.Deriv R) :
  -1 < mpr.value a < 1 -> chain_rule mpr.acos acos a.
Proof.
  intro H.
  apply chain_rule_intro with (k := / - sqrt (1 - mpr.value a * mpr.value a));
    try reflexivity; try by_reciprocal.
  apply derive_pt_eq_1 with (pr := derivable_pt_acos _ H).
  rewrite derive_pt_acos, Rinv_opp. unfold Rsqr, Rdiv. ring.
Qed.

(** Product rule: the product of duals that carry [f] and [g] carries
    [f * g]. *)
Lemma carries_mul (d : mpr.Deriv R -> R) (a b : mpr.Deriv R)
  (f g : R -> R) (t : R) :
  axis d -> carries d a f t -> carries d b g t ->
  carries d (mpr.operator_mul a b) (f * g)%F t.
Proof.
  intros Hd [Ha Da] [Hb Db]. split.
  - cbn. fold (mpr.value a) (mpr.value b). now rewrite Ha, Hb.
  - replace (d (mpr.operator_mul a b)) with (d a * g t + f t * d b).
    + now apply derivable_pt_lim_mult.
    + rewrite <- Ha, <- Hb.
      destruct Hd as [-> | [-> | ->]]; cbn; ring.
Qed.

(** Quotient rule: the quotient of duals that carry [f] and [g] carries
    [f / g] where [g] is not zero. *)
Lemma carries_div (d : mpr.Deriv R -> R) (a b : mpr.Deriv R)
  (f g : R -> R) (t : R) :
  axis d -> carries d a f t -> carries d b g t -> g t <> 0 ->
  carries d (mpr.operator_div a b) (f / g)%F t.
Proof.
  intros Hd [Ha Da] [Hb Db] Hg. split.
  - cbn. fold (mpr.value a) (mpr.value b). now rewrite Ha, Hb.
  - replace (d (mpr.operator_div a b))
      with ((d a * g t - d b * f t) / Rsqr (g t)).
    + now apply derivable_pt_lim_div.
    + rewrite <- Ha, <- Hb.
      destruct Hd as [-> | [-> | ->]]; cbn;
        fold (mpr.value a) (mpr.value b);
        rewrite pow_two; unfold Rsqr, Rdiv; ring.
Qed.

End Exact.

(** C1. The operators on duals propagate derivatives by the closed-form
    rules.  In every arithmetic, [binary32] included: the product has
    value [a.value * b.value] and partials [a.d * b.value + b.d * a.value];
    the quotient has value [a.value / b.value] and partials
    [(b.value * a.d - a.value * b.d) / powf (b.value, 2)]; each
    transcendental has the value of its primitive and partials that are
    [a.d] times, or divided by, the factor written in the header.
    In exact arithmetic: [powf (b, 2)] is the square of [b]; along each
    axis the product of duals that carry the derivatives of [f] and [g]
    carries the derivative of [f * g], and their quotient that of [f / g]
    where the divisor's value is not zero; and for [sin], [cos], [exp] and
    [atan], for [sqrt] and [log] at a positive value, and for [asin] and
    [acos] at a value strictly between -1 and 1, every partial of the
    result is the partial of the operand multiplied by the derivative of
    the primitive at the operand's value. *)
Theorem derivative_propagation_rules :
  (forall (float : Type) (A : Arith float) (L : Libm float)
          (a b : mpr.Deriv float),
     let va := mpr.value a in
     let vb := mpr.value b in
     (mpr.value (mpr.operator_mul a b) = va * vb /\
      partials2 (mpr.operator_mul a b) (fun da db => da * vb + db * va) a b) /\
     (mpr.value (mpr.operator_div a b) = va / vb /\
      partials2 (mpr.operator_div a b)
        (fun da db => (vb * da - va * db) / powf vb (lit 2)) a b) /\
     (mpr.value (mpr.sqrt a) = sqrtf va /\
      partials1 (mpr.sqrt a) (fun d => d / (lit 2 * sqrtf va)) a) /\
     (mpr.value (mpr.sin a) = sinf va /\
      partials1 (mpr.sin a) (fun d => cosf va * d) a) /\
     (mpr.value (mpr.cos a) = cosf va /\
      partials1 (mpr.cos a) (fun d => - sinf va * d) a) /\
     (mpr.value (mpr.exp a) = expf va /\
      partials1 (mpr.exp a) (fun d => expf va * d) a) /\
     (mpr.value (mpr.log a) = logf va /\
      partials1 (mpr.log a) (fun d => d / va) a) /\
     (mpr.value (mpr.atan a) = atanf va /\
      partials1 (mpr.atan a) (fun d => d / (va * va + lit 1)) a) /\
     (mpr.value (mpr.asin a) = asinf va /\
      partials1 (mpr.asin a) (fun d => d / sqrtf (lit 1 - va * va)) a) /\
     (mpr.value (mpr.acos a) = acosf va /\
      partials1 (mpr.acos a) (fun d => d / - sqrtf (lit 1 - va * va)) a))%flt
  /\ (forall b : R, powf b (lit 2) = (b ^ 2)%R)
  /\ (forall (d : mpr.Deriv R -> R) (a b : mpr.Deriv R) (f g : R -> R) (t : R),
        axis d -> carries d a f t -> carries d b g t ->
        carries d (mpr.operator_mul a b) (f * g)%F t /\
        (g t <> 0%R -> carries d (mpr.operator_div a b) (f / g)%F t))
  /\ (forall a : mpr.Deriv R,
        chain_rule mpr.sin sin a /\
        chain_rule mpr.cos cos a /\
        chain_rule mpr.exp exp a /\
        chain_rule mpr.atan atan a /\
        ((0 < mpr.value a)%R ->
           chain_rule mpr.sqrt sqrt a /\ chain_rule mpr.log ln a) /\
        ((-1 < mpr.value a < 1)%R ->
           chain_rule mpr.asin asin a /\ chain_rule mpr.acos acos a)).
Proof.
  split; [| split; [| split]].
  - intros float A L a b va vb. unfold partials1, partials2.
    repeat split; reflexivity.
  - intro b. change (powf b (lit 2)) with (exact.pow b 2).
    rewrite pow_two. ring.
  - intros d a b f g t Hd Ha Hb. split.
    + now apply carries_mul.
    + intro Hg. now apply carries_div.
  - intro a.
    refine (conj (chain_sin a) (conj (chain_cos a) (conj (chain_exp a)
             (conj (chain_atan a) (conj _ _))))).
    + intro H. exact (conj (chain_sqrt a H) (chain_log a H)).
    + intro H. exact (conj (chain_asin a H) (chain_acos a H)).
Qed.

(** The rules at the dual of the variable [x] seeded at [1/2]: as an
    operand of the transcendentals, and in [x / x] along the x axis. *)
Lemma derivative_propagation_rules_witness :
  let a : mpr.Deriv R := mpr.Deriv_4 (1 / 2)%R 1%R 0%R 0%R in
  ((0 < mpr.value a)%R /\ (-1 < mpr.value a < 1)%R /\
   chain_rule mpr.sqrt sqrt a /\ chain_rule mpr.log ln a /\
   chain_rule mpr.asin asin a /\ chain_rule mpr.acos acos a) /\
  (axis mpr.dx /\ carries mpr.dx a id (1 / 2)%R /\ id (1 / 2)%R <> 0%R /\
   carries mpr.dx (mpr.operator_mul a a) (id * id)%F (1 / 2)%R /\
   carries mpr.dx (mpr.operator_div a a) (id / id)%F (1 / 2)%R).
Proof.
  intro a.
  assert (H0 : (0 < mpr.value a)%R) by (cbn; lra).
  assert (H1 : (-1 < mpr.value a < 1)%R) by (cbn; lra).
  assert (Hx : axis mpr.dx) by (left; reflexivity).
  assert (Hc : carries mpr.dx a id (1 / 2)%R)
    by (split; [reflexivity | apply derivable_pt_lim_id]).
  assert (Hn : id (1 / 2)%R <> 0%R) by (unfold id; lra).
  destruct derivative_propagation_rules as (_ & _ & Hpq & H).
  destruct (H a) as (_ & _ & _ & _ & Hpos & Hunit).
  destruct (Hpos H0) as [Hs Hl]. destruct (Hunit H1) as [Has Hac].
  destruct (Hpq mpr.dx a a id id (1 / 2)%R Hx Hc Hc) as [Hm Hq].
  exact (conj (conj H0 (conj H1 (conj Hs (conj Hl (conj Has Hac)))))
              (conj Hx (conj Hc (conj Hn (conj Hm (Hq Hn)))))).
Defined.

(** C6. [Deriv(f)] has value [f] and three zero partials; [Deriv()] is
    [Deriv(0.0f)], all four components zero; the accessors return the
    arguments of the four-argument constructor, so a dual seeded with a
    unit partial along one axis reads back one along that axis and zero
    along the other two.  Zero is [+0] in [binary32], where one differs
    from it. *)
Theorem constructors_and_accessors (float : Type) (A : Arith float)
  (f v0 dx0 dy0 dz0 : float) :
  (mpr.value (mpr.Deriv_1 f) = f /\
   mpr.dx (mpr.Deriv_1 f) = lit 0 /\
   mpr.dy (mpr.Deriv_1 f) = lit 0 /\
   mpr.dz (mpr.Deriv_1 f) = lit 0) /\
  (mpr.value mpr.Deriv_0 = lit 0 /\
   mpr.dx mpr.Deriv_0 = lit 0 /\
   mpr.dy mpr.Deriv_0 = lit 0 /\
   mpr.dz mpr.Deriv_0 = lit 0) /\
  (mpr.value (mpr.Deriv_4 v0 dx0 dy0 dz0) = v0 /\
   mpr.dx (mpr.Deriv_4 v0 dx0 dy0 dz0) = dx0 /\
   mpr.dy (mpr.Deriv_4 v0 dx0 dy0 dz0) = dy0 /\
   mpr.dz (mpr.Deriv_4 v0 dx0 dy0 dz0) = dz0) /\
  (let X := mpr.Deriv_4 v0 (lit 1) (lit 0) (lit 0) in
   let Y := mpr.Deriv_4 v0 (lit 0) (lit 1) (lit 0) in
   let Z := mpr.Deriv_4 v0 (lit 0) (lit 0) (lit 1) in
   (mpr.dx X = lit 1 /\ mpr.dy X = lit 0 /\ mpr.dz X = lit 0) /\
   (mpr.dx Y = lit 0 /\ mpr.dy Y = lit 1 /\ mpr.dz Y = lit 0) /\
   (mpr.dx Z = lit 0 /\ mpr.dy Z = lit 0 /\ mpr.dz Z = lit 1)) /\
  (@lit binary32.float _ 0 = binary32.pos_zero /\
   binary32.eqb (lit 1) (lit 0) = false).
Proof. repeat split. Qed.

(** ** Selection, ties and mixed operands, in binary32 *)

Section Binary32.

Import binary32.
Local Open Scope float_scope.

(** *** [min] and [max] *)

Lemma min_cases (a b : mpr.Deriv float) : mpr.min a b = a \/ mpr.min a b = b.
Proof. unfold mpr.min. destruct (_ <? _); auto. Qed.

Lemma max_cases (a b : mpr.Deriv float) : mpr.max a b = a \/ mpr.max a b = b.
Proof. unfold mpr.max. destruct (_ >=? _); auto. Qed.

Lemma min_smaller (a b : mpr.Deriv float) :
  is_nan (mpr.value a) = false -> is_nan (mpr.value b) = false ->
  smaller_of (mpr.value (mpr.min a b)) (mpr.value a) (mpr.value b).
Proof.
  intros Ha Hb. unfold mpr.min, smaller_of.
  destruct (mpr.value a <? mpr.value b) eqn:E; cbn [flt arith] in E.
  - auto using leb_refl, ltb_leb.
  - auto using leb_refl, ltb_false_leb.
Qed.

Lemma max_larger (a b : mpr.Deriv float) :
  is_nan (mpr.value a) = false -> is_nan (mpr.value b) = false ->
  larger_of (mpr.value (mpr.max a b)) (mpr.value a) (mpr.value b).
Proof.
  intros Ha Hb. unfold mpr.max, larger_of.
  destruct (mpr.value a >=? mpr.value b) eqn:E; cbn [fge arith] in E.
  - auto using leb_refl.
  - auto using leb_refl, ltb_leb, leb_false_ltb.
Qed.

(** Every comparison with a NaN is false: both ternaries take their
    second branch. *)
Lemma min_max_nan (a b : mpr.Deriv float) :
  is_nan (mpr.value a) = true \/ is_nan (mpr.value b) = true ->
  mpr.min a b = b /\ mpr.max a b = b.
Proof.
  unfold mpr.min, mpr.max. cbn [flt fge arith].
  destruct (mpr.value a) as [| | |], (mpr.value b) as [| | |]; cbn;
    intros [H | H]; try discriminate; auto.
Qed.

(** C3, as amended. [min (a, b)] and [max (a, b)] each return one of the
    two operands whole, for every pair of duals.  When neither value is a
    NaN, the value of [min (a, b)] is the smaller of the two values and
    the value of [max (a, b)] the larger.  When a value is a NaN, both
    return [b]. *)
Theorem min_max_return_an_operand (a b : mpr.Deriv float) :
  (mpr.min a b = a \/ mpr.min a b = b) /\
  (mpr.max a b = a \/ mpr.max a b = b) /\
  (is_nan (mpr.value a) = false -> is_nan (mpr.value b) = false ->
   selects_extremum a b) /\
  (is_nan (mpr.value a) = true \/ is_nan (mpr.value b) = true ->
   mpr.min a b = b /\ mpr.max a b = b).
Proof.
  split; [apply min_cases |]. split; [apply max_cases |]. split.
  - intros Ha Hb.
    exact (conj (min_cases a b) (conj (min_smaller a b Ha Hb)
             (conj (max_cases a b) (max_larger a b Ha Hb)))).
  - apply min_max_nan.
Qed.

Lemma min_max_return_an_operand_witness :
  let a : mpr.Deriv float := mpr.Deriv_4 (lit 1) (lit 1) (lit 0) (lit 0) in
  let b : mpr.Deriv float := mpr.Deriv_4 (lit 2) (lit 0) (lit 1) (lit 0) in
  is_nan (mpr.value a) = false /\ is_nan (mpr.value b) = false /\
  selects_extremum a b.
Proof.
  intros a b.
  assert (Ha : is_nan (mpr.value a) = false) by reflexivity.
  assert (Hb : is_nan (mpr.value b) = false) by reflexivity.
  destruct (min_max_return_an_operand a b) as (_ & _ & H & _).
  exact (conj Ha (conj Hb (H Ha Hb))).
Defined.

(** C3 fails at [a = Deriv(1.0f)], [b = Deriv(NaN)]: [1 < NaN] is false,
    [min] returns [b], and its value, a NaN, is not [<=] 1. *)
Lemma min_of_nan_is_not_smaller :
  let a : mpr.Deriv float := mpr.Deriv_1 (lit 1) in
  let b : mpr.Deriv float := mpr.Deriv_1 NaN in
  components valid a /\ components valid b /\
  mpr.min a b = b /\ mpr.value (mpr.min a b) = NaN /\
  ~ selects_extremum a b.
Proof.
  intros a b. split; [repeat split |]. split; [repeat split |].
  split; [reflexivity |]. split; [reflexivity |].
  intros (_ & (_ & H & _) & _). vm_compute in H. discriminate H.
Qed.

(** C8. When [a.value == b.value], [min (a, b)] is [b] and [max (a, b)]
    is [a]; so the two differ whenever [a] and [b] differ in a derivative
    field. *)
Theorem min_max_tie_break (a b : mpr.Deriv float) :
  eqb (mpr.value a) (mpr.value b) = true ->
  mpr.min a b = b /\ mpr.max a b = a /\
  (differ_in_derivative a b -> mpr.min a b <> mpr.max a b).
Proof.
  intro H.
  assert (Hmin : mpr.min a b = b).
  { unfold mpr.min. cbn [flt arith]. now rewrite (eqb_ltb_false _ _ H). }
  assert (Hmax : mpr.max a b = a).
  { unfold mpr.max. cbn [fge arith]. now rewrite (eqb_geb _ _ H). }
  split; [exact Hmin |]. split; [exact Hmax |].
  rewrite Hmin, Hmax. intros [D | [D | D]] E; apply D; now rewrite E.
Qed.

Lemma min_max_tie_break_witness :
  let a : mpr.Deriv float := mpr.Deriv_4 (lit 1) (lit 1) (lit 0) (lit 0) in
  let b : mpr.Deriv float := mpr.Deriv_4 (lit 1) (lit 0) (lit 1) (lit 0) in
  eqb (mpr.value a) (mpr.value b) = true /\
  mpr.min a b = b /\ mpr.max a b = a /\
  (differ_in_derivative a b -> mpr.min a b <> mpr.max a b).
Proof.
  intros a b.
  assert (H : eqb (mpr.value a) (mpr.value b) = true) by reflexivity.
  exact (conj H (min_max_tie_break a b H)).
Defined.

(** *** [abs] *)

(** C4. The value of [abs (a)] is the absolute value of [a.value] (the
    same datum, or [==] to it: [-0] is returned as it is).  The partials
    are those of [a] when [a.value >= 0] and their negations when
    [a.value < 0]; when [a.value == 0] the result is [a] itself. *)
Theorem abs_takes_a_branch (a : mpr.Deriv float) :
  same_value (mpr.value (mpr.abs a)) (SFabs (mpr.value a)) /\
  ((mpr.value a >=? lit 0) = true -> partials1 (mpr.abs a) (fun d => d) a) /\
  ((mpr.value a <? lit 0) = true -> partials1 (mpr.abs a) fneg a) /\
  (eqb (mpr.value a) (lit 0) = true -> mpr.abs a = a).
Proof.
  unfold mpr.abs. cbn [flt fge lit arith].
  destruct (SFltb (mpr.value a) (of_Z 0)) eqn:E.
  - destruct (ltb_zero _ E) as (Habs & Hge & Heq).
    split; [left; exact Habs |]. split; [| split].
    + rewrite Hge. discriminate.
    + intros _. repeat split.
    + rewrite Heq. discriminate.
  - split; [exact (not_ltb_zero _ E) |]. split; [| split].
    + intros _. repeat split.
    + discriminate.
    + reflexivity.
Qed.

Lemma abs_takes_a_branch_witness :
  let a : mpr.Deriv float := mpr.Deriv_4 neg_zero (lit 1) (lit 0) (lit 0) in
  let c : mpr.Deriv float := mpr.Deriv_4 (lit (-3)) (lit 1) (lit 0) (lit 2) in
  ((mpr.value a >=? lit 0) = true /\ eqb (mpr.value a) (lit 0) = true /\
   partials1 (mpr.abs a) (fun d => d) a /\ mpr.abs a = a) /\
  ((mpr.value c <? lit 0) = true /\ partials1 (mpr.abs c) fneg c).
Proof.
  intros a c.
  assert (Hge : (mpr.value a >=? lit 0) = true) by reflexivity.
  assert (Heq : eqb (mpr.value a) (lit 0) = true) by reflexivity.
  assert (Hlt : (mpr.value c <? lit 0) = true) by reflexivity.
  destruct (abs_takes_a_branch a) as (_ & H1 & _ & H3).
  destruct (abs_takes_a_branch c) as (_ & _ & H2 & _).
  exact (conj (conj Hge (conj Heq (conj (H1 Hge) (H3 Heq))))
              (conj Hlt (H2 Hlt))).
Defined.

(** *** [square] *)

Lemma square_mul (a : mpr.Deriv float) : mpr.square a = mpr.operator_mul a a.
Proof.
  unfold mpr.square, mpr.operator_mul. cbn [fmul fadd lit arith].
  now rewrite !mul_two_add_self.
Qed.

(** C9. For a dual with four finite components, [square (a)] and [a * a]
    are the same dual: the same value and the same three partials, bit for
    bit. *)
Theorem square_agrees_with_self_product (a : mpr.Deriv float) :
  components is_finite a ->
  mpr.square a = mpr.operator_mul a a /\
  componentwise eq (mpr.square a) (mpr.operator_mul a a).
Proof.
  intros _. rewrite square_mul. repeat split.
Qed.

Lemma square_agrees_with_self_product_witness :
  let a : mpr.Deriv float := mpr.Deriv_4 (lit 3) (lit 1) (lit 0) (lit (-2)) in
  components is_finite a /\
  mpr.square a = mpr.operator_mul a a /\
  componentwise eq (mpr.square a) (mpr.operator_mul a a).
Proof.
  intro a.
  assert (H : components is_finite a) by (repeat split).
  exact (conj H (square_agrees_with_self_product a H)).
Defined.

(** *** Mixed overloads *)

Ltac dual_simpl :=
  unfold same_dual, componentwise;
  cbn [mpr.operator_add mpr.operator_add_Df mpr.operator_add_fD
       mpr.operator_sub mpr.operator_sub_Df mpr.operator_sub_fD
       mpr.operator_mul mpr.operator_mul_Df mpr.operator_mul_fD
       mpr.Deriv_1 mpr.Deriv_4 mpr.value mpr.dx mpr.dy mpr.dz
       mpr.v mpr.x mpr.y mpr.z mpr.w
       lit fneg fadd fsub fmul arith];
  change (of_Z 0) with (S754_zero false).

Lemma promote_Df (a : mpr.Deriv float) (b : float) :
  is_finite (mpr.value a) = true -> promotes_Df a b.
Proof.
  intro Hv. unfold promotes_Df.
  destruct (is_zero_inv _ (mul_zero_l _ Hv)) as [s Hs].
  change (of_Z 0) with (S754_zero false) in Hs.
  repeat split; try apply same_dual_refl; dual_simpl;
    fold (mpr.value a) (mpr.dx a) (mpr.dy a) (mpr.dz a);
    rewrite ?Hs; change (S754_zero false) with (of_Z 0); rewrite ?sub_zero_r;
    try apply same_value_refl;
    try (apply same_value_sym, add_zero_r).
Qed.

Lemma promote_fD_arith (a : mpr.Deriv float) (b : float) :
  is_finite (mpr.value a) = true -> promotes_fD_arith b a.
Proof.
  intro Hv. unfold promotes_fD_arith.
  destruct (is_zero_inv _ (mul_zero_l _ Hv)) as [s Hs].
  change (of_Z 0) with (S754_zero false) in Hs.
  repeat split; dual_simpl;
    fold (mpr.value a) (mpr.dx a) (mpr.dy a) (mpr.dz a);
    rewrite ?Hs;
    try apply same_value_refl;
    try (left; apply add_comm);
    try (left; apply mul_comm);
    try (apply same_value_sym, add_zero_l);
    try (apply same_value_sym, sub_zero_l).
Qed.

Lemma promote_fD_select (a : mpr.Deriv float) (b : float) :
  is_nan (mpr.value a) = false -> is_nan b = false ->
  eqb (mpr.value a) b = false -> promotes_fD_select b a.
Proof.
  intros Ha Hb Hne. destruct (neq_ltb _ _ Ha Hb Hne) as (Hlt & Hge & Hle).
  split; apply same_dual_eq.
  - unfold mpr.min_fD, mpr.min_Df, mpr.min.
    cbn [flt arith mpr.value mpr.Deriv_1 mpr.v mpr.w].
    fold (mpr.value a). rewrite Hlt. now destruct (SFltb (mpr.value a) b).
  - unfold mpr.max_fD, mpr.max_Df, mpr.max.
    cbn [fge arith mpr.value mpr.Deriv_1 mpr.v mpr.w].
    fold (mpr.value a). rewrite Hge, Hle, Hlt.
    now destruct (SFltb (mpr.value a) b).
Qed.

(** At a tie the [(float, Deriv)] overloads, which swap their operands,
    keep the other operand than the [(Deriv, Deriv)] operators. *)
Lemma fD_select_tie (a : mpr.Deriv float) (b : float) :
  eqb (mpr.value a) b = true ->
  mpr.min_fD b a = mpr.Deriv_1 b /\ mpr.min (mpr.Deriv_1 b) a = a /\
  mpr.max_fD b a = a /\ mpr.max (mpr.Deriv_1 b) a = mpr.Deriv_1 b.
Proof.
  intro H.
  assert (H' : eqb b (mpr.value a) = true) by now rewrite eqb_sym.
  unfold mpr.min_fD, mpr.min_Df, mpr.min, mpr.max_fD, mpr.max_Df, mpr.max.
  cbn [flt fge arith mpr.value mpr.Deriv_1 mpr.v mpr.w]. fold (mpr.value a).
  rewrite (eqb_ltb_false _ _ H), (eqb_ltb_false _ _ H'),
    (eqb_geb _ _ H), (eqb_geb _ _ H').
  auto.
Qed.

(** C10, as amended. For a dual [a] with finite components and a finite
    [b], the overloads [a + b], [a - b], [a * b], [min (a, b)],
    [max (a, b)] and the float-first [b + a], [b - a], [b * a] return the
    same value and partials (up to the sign of a zero) as the operator on
    duals applied to [a] and [Deriv (b)] in the same order.  So do the
    float-first [min (b, a)] and [max (b, a)] when [a.value != b].  When
    [a.value == b] they return [Deriv (b)] and [a], where the operators on
    duals return [a] and [Deriv (b)]. *)
Theorem mixed_overloads_promote (a : mpr.Deriv float) (b : float) :
  components is_finite a -> is_finite b = true ->
  promotes_Df a b /\ promotes_fD_arith b a /\
  (eqb (mpr.value a) b = false -> promotes_fD_select b a) /\
  (eqb (mpr.value a) b = true ->
   mpr.min_fD b a = mpr.Deriv_1 b /\ mpr.min (mpr.Deriv_1 b) a = a /\
   mpr.max_fD b a = a /\ mpr.max (mpr.Deriv_1 b) a = mpr.Deriv_1 b).
Proof.
  intros (Hv & _) Hb.
  split; [now apply promote_Df |]. split; [now apply promote_fD_arith |].
  split.
  - apply promote_fD_select; now apply is_finite_not_nan.
  - apply fD_select_tie.
Qed.

Lemma mixed_overloads_promote_witness :
  let a : mpr.Deriv float := mpr.Deriv_4 (lit 1) neg_zero (lit 1) (lit 0) in
  let b : float := lit 2 in
  components is_finite a /\ is_finite b = true /\
  eqb (mpr.value a) b = false /\
  promotes_Df a b /\ promotes_fD_arith b a /\ promotes_fD_select b a.
Proof.
  intros a b.
  assert (Ha : components is_finite a) by (repeat split).
  assert (Hb : is_finite b = true) by reflexivity.
  assert (Hne : eqb (mpr.value a) b = false) by reflexivity.
  destruct (mixed_overloads_promote a b Ha Hb) as (H1 & H2 & H3 & _).
  exact (conj Ha (conj Hb (conj Hne (conj H1 (conj H2 (H3 Hne)))))).
Defined.

(** C10 fails at [a = Deriv (1, 1, 0, 0)], [b = 1.0f]: [min (b, a)] is
    [min (a, b)], where [1 < 1] is false, so [Deriv (b)] is returned, with
    partial 0 along x; [min (Deriv (b), a)] returns [a], with partial 1. *)
Lemma float_first_min_differs_from_promotion :
  let a : mpr.Deriv float := mpr.Deriv_4 (lit 1) (lit 1) (lit 0) (lit 0) in
  let b : float := lit 1 in
  components valid a /\ valid b = true /\
  components is_finite a /\ is_finite b = true /\
  mpr.dx (mpr.min_fD b a) = lit 0 /\
  mpr.dx (mpr.min (mpr.Deriv_1 b) a) = lit 1 /\
  ~ promotes a b.
Proof.
  intros a b.
  split; [repeat split |]. split; [reflexivity |].
  split; [repeat split |]. split; [reflexivity |].
  split; [reflexivity |]. split; [reflexivity |].
  intros (_ & _ & (_ & [H | H] & _) & _).
  - vm_compute in H. discriminate H.
  - vm_compute in H. discriminate H.
Qed.

(** *** Non-finite results *)



End Binary32.

(** * Further properties of the header *)

(** ** Exact operations on values of the type *)

Section ExactOperations.

Import binary32.
Local Open Scope Z_scope.

Lemma valid_finite (s : bool) (m : positive) (e : Z) :
  valid (S754_finite s m e) = true ->
  fexp prec emax (Zpos (digits2_pos m) + e) = e /\ e <= emax - prec.
Proof.
  unfold valid, valid_binary, bounded, canonical_mantissa. intro H.
  apply andb_prop in H. destruct H as [Hc Hb].
  apply Z.eqb_eq in Hc. apply Z.leb_le in Hb. now split.
Qed.

(** Rounding the significand and exponent of a value of the type gives
    the value back. *)
Lemma round_canonical (s : bool) (m : positive) (e : Z) :
  valid (S754_finite s m e) = true ->
  binary_round_aux prec emax s (Zpos m) e loc_Exact = S754_finite s m e.
Proof.
  intro Hv. destruct (valid_finite _ _ _ Hv) as [Hc Hb].
  assert (Hs : shr_fexp prec emax (Zpos m) e loc_Exact
               = (Build_shr_record (Zpos m) false false, e)).
  { unfold shr_fexp. cbn [Zdigits2]. rewrite Hc, Z.sub_diag. reflexivity. }
  unfold binary_round_aux.
  rewrite Hs. cbn [shr_m loc_of_shr_record round_nearest_even].
  rewrite Hs. cbn [shr_m].
  apply Z.leb_le in Hb. now rewrite Hb.
Qed.

Lemma round_canonical_double (s : bool) (m : positive) (e : Z) :
  valid (S754_finite s m e) = true ->
  binary_round_aux prec emax s (Zpos (xO m)) (e - 1) loc_Exact
  = S754_finite s m e.
Proof.
  intro Hv. destruct (valid_finite _ _ _ Hv) as [Hc Hb].
  assert (Hs : shr_fexp prec emax (Zpos (xO m)) (e - 1) loc_Exact
               = (Build_shr_record (Zpos m) false false, e)).
  { unfold shr_fexp. cbn [Zdigits2 digits2_pos].
    replace (Zpos (Pos.succ (digits2_pos m)) + (e - 1))
      with (Zpos (digits2_pos m) + e) by lia.
    rewrite Hc. replace (e - (e - 1)) with 1 by lia.
    cbn. f_equal. lia. }
  assert (Hs' : shr_fexp prec emax (Zpos m) e loc_Exact
               = (Build_shr_record (Zpos m) false false, e)).
  { unfold shr_fexp. cbn [Zdigits2]. rewrite Hc, Z.sub_diag. reflexivity. }
  unfold binary_round_aux.
  rewrite Hs. cbn [shr_m loc_of_shr_record round_nearest_even].
  rewrite Hs'. cbn [shr_m].
  apply Z.leb_le in Hb. now rewrite Hb.
Qed.

(** Multiplying a value of the type by [1.0f] or [-1.0f] is exact. *)
Lemma mul_unit (a : float) (s : bool) :
  valid a = true ->
  SFmul prec emax a (S754_finite s 8388608 (-23)) = if s then SFopp a else a.
Proof.
  destruct a as [sa | sa | | sa m e]; intro Hv.
  - destruct sa, s; reflexivity.
  - destruct sa, s; reflexivity.
  - destruct s; reflexivity.
  - destruct (valid_finite _ _ _ Hv) as [Hc Hb].
    cbn [SFmul]. unfold binary_round_aux.
    rewrite Pos.mul_comm.
    change (Pos.mul 8388608 m) with (Nat.iter 23 xO m).
    change (e + -23) with (e - Z.of_nat 23).
    rewrite shr_fexp_scaled by (rewrite Hc; lia).
    rewrite Hc.
    assert (Hal : shl_align m e e = (m, e)).
    { unfold shl_align. now rewrite Z.sub_diag. }
    rewrite Hal.
    pose proof (round_canonical (xorb sa s) m e Hv) as Hr.
    unfold binary_round_aux in Hr. rewrite Hr.
    destruct sa, s; reflexivity.
Qed.

Lemma shiftl_pos (m : positive) (k : nat) :
  Z.shiftl (Zpos m) (Z.of_nat k) = Zpos m * 2 ^ Z.of_nat k.
Proof. rewrite Z.shiftl_mul_pow2 by lia. reflexivity. Qed.

(** Dividing a value of the type by [1.0f] is exact. *)
Lemma div_one (a : float) :
  valid a = true -> SFdiv prec emax a (of_Z 1) = a.
Proof.
  destruct a as [[] | [] | | s m e]; intro Hv; try reflexivity.
  destruct (valid_finite _ _ _ Hv) as [Hc Hb].
  change (of_Z 1) with (S754_finite false 8388608 (-23)).
  cbn [SFdiv]. rewrite xorb_false_r.
  unfold SFdiv_core_binary.
  change (Zdigits2 (Zpos 8388608)) with 24.
  cbn [Zdigits2].
  set (D := Zpos (digits2_pos m) + e) in *.
  change (24 + -23) with 1.
  assert (Hcases :
    (Z.min (fexp prec emax (D - 1)) (e - -23) = e - 1
     /\ Zpos (digits2_pos m) = 24)
    \/ Z.min (fexp prec emax (D - 1)) (e - -23) = e).
  { unfold fexp, emin, prec, emax in *.
    pose proof (Pos2Z.is_pos (digits2_pos m)).
    unfold D in *. lia. }
  destruct Hcases as [[He' Hd] | He']; rewrite He'.
  - replace (e - -23 - (e - 1)) with (Z.of_nat 24) by lia.
    cbn [Z.of_nat Pos.of_succ_nat Pos.succ].
    change (Zpos 24) with (Z.of_nat 24). rewrite shiftl_pos.
    pose proof (Z_div_mod (Zpos m * 2 ^ Z.of_nat 24) (Zpos 8388608) eq_refl)
      as Hdm.
    destruct (Z.div_eucl (Zpos m * 2 ^ Z.of_nat 24) (Zpos 8388608)) as [q r].
    destruct Hdm as [Heq Hr].
    change (2 ^ Z.of_nat 24) with 16777216 in Heq.
    assert (Hq : q = Zpos (xO m)) by lia.
    assert (Hr0 : r = 0) by lia.
    subst q r. change (new_location (Zpos 8388608) 0) with loc_Exact.
    now apply round_canonical_double.
  - replace (e - -23 - e) with (Z.of_nat 23) by lia.
    cbn [Z.of_nat Pos.of_succ_nat Pos.succ].
    change (Zpos 23) with (Z.of_nat 23). rewrite shiftl_pos.
    pose proof (Z_div_mod (Zpos m * 2 ^ Z.of_nat 23) (Zpos 8388608) eq_refl)
      as Hdm.
    destruct (Z.div_eucl (Zpos m * 2 ^ Z.of_nat 23) (Zpos 8388608)) as [q r].
    destruct Hdm as [Heq Hr].
    change (2 ^ Z.of_nat 23) with 8388608 in Heq.
    assert (Hq : q = Zpos m) by lia.
    assert (Hr0 : r = 0) by lia.
    subst q r. change (new_location (Zpos 8388608) 0) with loc_Exact.
    now apply round_canonical.
Qed.

End ExactOperations.

(** ** Negation, subtraction and NaN operands *)

Section Signs.

Import binary32.

Lemma opp_involutive (a : float) : SFopp (SFopp a) = a.
Proof.
  destruct a as [s | s | | s m e]; cbn; now rewrite ?negb_involutive.
Qed.

Lemma sub_add_opp (a b : float) :
  SFsub prec emax a b = SFadd prec emax a (SFopp b).
Proof.
  destruct a as [sa | sa | | sa ma ea], b as [sb | sb | | sb mb eb];
    try reflexivity; destruct sa, sb; reflexivity.
Qed.

Lemma sub_diag (a : float) :
  is_finite a = true -> SFsub prec emax a a = S754_zero false.
Proof.
  destruct a as [[] | s | | s m e]; cbn [is_finite]; intro H;
    try discriminate; try reflexivity.
  cbn [SFsub]. now rewrite Z.sub_diag.
Qed.

Lemma sub_diag_non_finite (a : float) :
  is_finite a = false -> SFsub prec emax a a = S754_nan.
Proof.
  destruct a as [s | [] | | s m e]; cbn [is_finite]; intro H;
    try discriminate; reflexivity.
Qed.

Lemma add_nan (a b : float) :
  is_nan a = true \/ is_nan b = true -> is_nan (SFadd prec emax a b) = true.
Proof.
  destruct a as [[] | [] | | [] ma ea], b as [[] | [] | | [] mb eb];
    cbn [is_nan]; intros [H | H]; try discriminate; reflexivity.
Qed.

Lemma sub_nan (a b : float) :
  is_nan a = true \/ is_nan b = true -> is_nan (SFsub prec emax a b) = true.
Proof.
  destruct a as [[] | [] | | [] ma ea], b as [[] | [] | | [] mb eb];
    cbn [is_nan]; intros [H | H]; try discriminate; reflexivity.
Qed.

Lemma mul_nan (a b : float) :
  is_nan a = true \/ is_nan b = true -> is_nan (SFmul prec emax a b) = true.
Proof.
  destruct a as [[] | [] | | [] ma ea], b as [[] | [] | | [] mb eb];
    cbn [is_nan]; intros [H | H]; try discriminate; reflexivity.
Qed.

Lemma div_nan (a b : float) :
  is_nan a = true \/ is_nan b = true -> is_nan (SFdiv prec emax a b) = true.
Proof.
  destruct a as [[] | [] | | [] ma ea], b as [[] | [] | | [] mb eb];
    cbn [is_nan]; intros [H | H]; try discriminate; reflexivity.
Qed.

(** What is rounded with a clear sign bit is not negative. *)
Lemma round_positive_not_negative (m e : Z) (l : location) :
  SFltb (binary_round_aux prec emax false m e l) (of_Z 0) = false.
Proof.
  unfold binary_round_aux.
  destruct (shr_fexp prec emax m e l) as [mrs e'].
  destruct (shr_fexp prec emax _ e' loc_Exact) as [mrs' e''].
  destruct (shr_m mrs') as [| p | p]; try reflexivity.
  destruct (e'' <=? emax - prec)%Z; reflexivity.
Qed.

Lemma mul_self_not_negative (a : float) :
  SFltb (SFmul prec emax a a) (of_Z 0) = false.
Proof.
  destruct a as [[] | [] | | s m e]; try reflexivity.
  cbn [SFmul]. rewrite xorb_nilpotent. apply round_positive_not_negative.
Qed.

Lemma ltb_opp_of_negative (u : float) :
  SFltb u (of_Z 0) = true -> SFltb (SFopp u) (of_Z 0) = false.
Proof. now destruct u as [[] | [] | | [] m e]. Qed.

Lemma ltb_opp_of_number (u : float) :
  is_zero u = false -> is_nan u = false ->
  SFltb (SFopp u) (of_Z 0) = negb (SFltb u (of_Z 0)).
Proof. destruct u as [[] | [] | | [] m e]; cbn; intros; congruence. Qed.

Lemma ltb_zero_or_nan (u : float) :
  is_zero u = true \/ is_nan u = true ->
  SFltb u (of_Z 0) = false /\ SFltb (SFopp u) (of_Z 0) = false.
Proof.
  destruct u as [[] | [] | | [] m e]; cbn; intros [H | H];
    try discriminate; auto.
Qed.

Lemma Deriv_4_eta (a : mpr.Deriv float) :
  mpr.Deriv_4 (mpr.value a) (mpr.dx a) (mpr.dy a) (mpr.dz a) = a.
Proof. now destruct a as [[]]. Qed.

Lemma neg_involutive (a : mpr.Deriv float) :
  mpr.operator_neg (mpr.operator_neg a) = a.
Proof.
  unfold mpr.operator_neg. cbn. rewrite !opp_involutive.
  apply Deriv_4_eta.
Qed.

End Signs.

(** ** Algebra of the operators, in binary32 *)

Section Algebra.

Import binary32.
Local Open Scope float_scope.

(** X8. [a + b] and [b + a] are the same dual, and [a * b] and [b * a]
    have the same value, for every pair of operands: each of these
    components is a single addition or a single product, which is
    commutative in binary32.  (The partials of a product are two
    products and a sum, which a compiler may fuse; they are not part of
    the statement.) *)
Theorem sum_and_product_value_commute (a b : mpr.Deriv float) :
  mpr.operator_add a b = mpr.operator_add b a /\
  mpr.value (mpr.operator_mul a b) = mpr.value (mpr.operator_mul b a).
Proof.
  split.
  - unfold mpr.operator_add. cbn [fadd arith].
    f_equal; apply add_comm.
  - cbn. fold (mpr.value a) (mpr.value b). apply mul_comm.
Qed.

(** X9. Subtraction is addition of the negation, for all three overloads
    of [operator-], and negating twice gives the dual back; bit for bit
    and for every operand. *)
Theorem sub_is_add_of_neg (a b : mpr.Deriv float) (c : float) :
  mpr.operator_sub a b = mpr.operator_add a (mpr.operator_neg b) /\
  mpr.operator_neg (mpr.operator_neg a) = a /\
  mpr.operator_sub_Df a c = mpr.operator_add_Df a (- c) /\
  mpr.operator_sub_fD c a = mpr.operator_add_fD c (mpr.operator_neg a).
Proof.
  split; [| split; [apply neg_involutive | split]].
  - unfold mpr.operator_sub, mpr.operator_add, mpr.operator_neg.
    cbn. fold (mpr.value a) (mpr.value b). f_equal; apply sub_add_opp.
  - unfold mpr.operator_sub_Df, mpr.operator_add_Df.
    cbn [fsub fadd fneg arith]. f_equal. apply sub_add_opp.
  - unfold mpr.operator_sub_fD, mpr.operator_add_fD, mpr.operator_add_Df,
      mpr.operator_neg.
    cbn. fold (mpr.value a). f_equal.
    rewrite sub_add_opp. apply add_comm.
Qed.

(** X10. Scaling a dual by the literal 2, from either side, gives the
    dual added to itself, bit for bit and for every operand. *)
Theorem doubling_is_self_sum (a : mpr.Deriv float) :
  mpr.operator_mul_Df a (lit 2) = mpr.operator_add a a /\
  mpr.operator_mul_fD (lit 2) a = mpr.operator_add a a.
Proof.
  assert (H : mpr.operator_mul_Df a (lit 2) = mpr.operator_add a a).
  { unfold mpr.operator_mul_Df, mpr.operator_add. cbn [fadd fmul lit arith].
    now rewrite !mul_two_add_self. }
  split; [exact H | exact H].
Qed.

(** X11. On a dual whose components are values of the type, scaling by
    [1.0f] (from either side) and dividing by [1.0f] give the dual back,
    and scaling by [-1.0f] gives its negation: no rounding takes place. *)
Theorem unit_scalars_are_exact (a : mpr.Deriv float) :
  components valid a ->
  mpr.operator_mul_Df a (lit 1) = a /\
  mpr.operator_mul_fD (lit 1) a = a /\
  mpr.operator_mul_Df a (lit (-1)) = mpr.operator_neg a /\
  mpr.operator_div_Df a (lit 1) = a.
Proof.
  intros (Hv & Hx & Hy & Hz).
  assert (H1 : mpr.operator_mul_Df a (lit 1) = a).
  { unfold mpr.operator_mul_Df. cbn [fmul lit arith].
    change (of_Z 1) with (S754_finite false 8388608 (-23)).
    rewrite !(mul_unit _ false) by assumption. apply Deriv_4_eta. }
  split; [exact H1 |]. split; [exact H1 |]. split.
  - unfold mpr.operator_mul_Df, mpr.operator_neg. cbn [fmul fneg lit arith].
    change (of_Z (-1)) with (S754_finite true 8388608 (-23)).
    now rewrite !(mul_unit _ true) by assumption.
  - unfold mpr.operator_div_Df. cbn [fdiv lit arith].
    rewrite !div_one by assumption. apply Deriv_4_eta.
Qed.

Lemma unit_scalars_are_exact_witness :
  let a : mpr.Deriv float :=
    mpr.Deriv_4 (lit 3) (S754_finite true 1 (-149)) neg_zero NaN in
  components valid a /\
  mpr.operator_mul_Df a (lit 1) = a /\
  mpr.operator_mul_fD (lit 1) a = a /\
  mpr.operator_mul_Df a (lit (-1)) = mpr.operator_neg a /\
  mpr.operator_div_Df a (lit 1) = a.
Proof.
  intro a.
  assert (H : components valid a) by (repeat split).
  exact (conj H (unit_scalars_are_exact a H)).
Defined.

(** X12. [a - a] is [Deriv()], all four components [+0], when the
    components of [a] are finite; when the value of [a] is an infinity or
    a NaN the value of [a - a] is a NaN. *)
Theorem sub_self (a : mpr.Deriv float) :
  (components is_finite a -> mpr.operator_sub a a = mpr.Deriv_0) /\
  (is_finite (mpr.value a) = false ->
   is_nan (mpr.value (mpr.operator_sub a a)) = true).
Proof.
  split.
  - intros (Hv & Hx & Hy & Hz).
    unfold mpr.operator_sub, mpr.Deriv_0, mpr.Deriv_4. cbn [fsub lit arith].
    now rewrite !sub_diag by assumption.
  - intro H. cbn. fold (mpr.value a). now rewrite sub_diag_non_finite.
Qed.

Lemma sub_self_witness :
  let a : mpr.Deriv float := mpr.Deriv_4 (lit 3) (lit 1) neg_zero (lit (-2)) in
  let b : mpr.Deriv float := mpr.Deriv_4 (S754_infinity false) (lit 1) (lit 0) (lit 0) in
  (components is_finite a /\ mpr.operator_sub a a = mpr.Deriv_0) /\
  (is_finite (mpr.value b) = false /\
   is_nan (mpr.value (mpr.operator_sub b b)) = true).
Proof.
  intros a b.
  assert (Ha : components is_finite a) by (repeat split).
  assert (Hb : is_finite (mpr.value b) = false) by reflexivity.
  exact (conj (conj Ha (proj1 (sub_self a) Ha))
              (conj Hb (proj2 (sub_self b) Hb))).
Defined.

(** X13. [abs] is idempotent, and the value of [abs (a)] is never
    [< 0.0f]; for every operand, NaN included. *)
Theorem abs_is_idempotent (a : mpr.Deriv float) :
  mpr.abs (mpr.abs a) = mpr.abs a /\
  (mpr.value (mpr.abs a) <? lit 0) = false.
Proof.
  unfold mpr.abs at 2 3 4. cbn [flt lit arith].
  destruct (SFltb (mpr.value a) (of_Z 0)) eqn:E.
  - assert (H : SFltb (mpr.value (mpr.operator_neg a)) (of_Z 0) = false)
      by (exact (ltb_opp_of_negative _ E)).
    split; [| exact H].
    unfold mpr.abs. cbn [flt lit arith]. now rewrite H.
  - split; [| exact E].
    unfold mpr.abs. cbn [flt lit arith]. now rewrite E.
Qed.

(** X14. [abs] is even where the value is a number other than zero:
    [abs (-a)] is [abs (a)].  Where the value is a zero or a NaN neither
    [a] nor [-a] is negated, so [abs (-a)] is [-a] and [abs (a)] is [a],
    with opposite partials. *)
Theorem abs_of_negation (a : mpr.Deriv float) :
  (is_zero (mpr.value a) = false -> is_nan (mpr.value a) = false ->
   mpr.abs (mpr.operator_neg a) = mpr.abs a) /\
  (is_zero (mpr.value a) = true \/ is_nan (mpr.value a) = true ->
   mpr.abs (mpr.operator_neg a) = mpr.operator_neg a /\ mpr.abs a = a).
Proof.
  unfold mpr.abs. cbn [flt lit arith].
  change (mpr.value (mpr.operator_neg a)) with (SFopp (mpr.value a)).
  split.
  - intros Hz Hn. rewrite (ltb_opp_of_number _ Hz Hn).
    destruct (SFltb (mpr.value a) (of_Z 0)); cbn [negb];
      [reflexivity | apply neg_involutive].
  - intro H. destruct (ltb_zero_or_nan _ H) as [H1 H2].
    now rewrite H1, H2.
Qed.

Lemma abs_of_negation_witness :
  let a : mpr.Deriv float := mpr.Deriv_4 (lit 3) (lit 1) (lit 0) (lit (-2)) in
  let o : mpr.Deriv float := mpr.Deriv_4 (lit 0) (lit 1) (lit 0) (lit 0) in
  (is_zero (mpr.value a) = false /\ is_nan (mpr.value a) = false /\
   mpr.abs (mpr.operator_neg a) = mpr.abs a) /\
  ((is_zero (mpr.value o) = true \/ is_nan (mpr.value o) = true) /\
   mpr.abs (mpr.operator_neg o) = mpr.operator_neg o /\ mpr.abs o = o).
Proof.
  intros a o.
  assert (Hz : is_zero (mpr.value a) = false) by reflexivity.
  assert (Hn : is_nan (mpr.value a) = false) by reflexivity.
  assert (Ho : is_zero (mpr.value o) = true \/ is_nan (mpr.value o) = true)
    by (left; reflexivity).
  exact (conj (conj Hz (conj Hn (proj1 (abs_of_negation a) Hz Hn)))
              (conj Ho (proj2 (abs_of_negation o) Ho))).
Defined.

(** X15. The value of [square (a)] is never [< 0.0f], so [abs] leaves a
    square as it is; for every operand. *)
Theorem square_is_never_negative (a : mpr.Deriv float) :
  (mpr.value (mpr.square a) <? lit 0) = false /\
  mpr.abs (mpr.square a) = mpr.square a.
Proof.
  assert (H : (mpr.value (mpr.square a) <? lit 0) = false)
    by (exact (mul_self_not_negative (mpr.value a))).
  split; [exact H |]. unfold mpr.abs. now rewrite H.
Qed.

(** X16. [min (a, a)] and [max (a, a)] are [a].  When neither value is a
    NaN, [min (a, b)] and [max (a, b)] are the two operands, each once:
    no operand is returned by both or by neither. *)
Theorem min_max_partition (a b : mpr.Deriv float) :
  (mpr.min a a = a /\ mpr.max a a = a) /\
  (is_nan (mpr.value a) = false -> is_nan (mpr.value b) = false ->
   (mpr.min a b = a /\ mpr.max a b = b) \/
   (mpr.min a b = b /\ mpr.max a b = a)).
Proof.
  split.
  - unfold mpr.min, mpr.max. split; now destruct (_ : bool).
  - intros Ha Hb. unfold mpr.min, mpr.max. cbn [flt fge arith].
    destruct (SFltb (mpr.value a) (mpr.value b)) eqn:E.
    + left. split; [reflexivity |].
      destruct (SFleb (mpr.value b) (mpr.value a)) eqn:E'; [| reflexivity].
      exfalso. revert E E'. unfold SFltb, SFleb.
      rewrite (compare_antisym (mpr.value a) (mpr.value b)).
      now destruct (SFcompare (mpr.value a) (mpr.value b)) as [[]|].
    + right. split; [reflexivity |].
      pose proof (ltb_false_leb _ _ Ha Hb E) as P. unfold leb in P.
      now rewrite P.
Qed.

Lemma min_max_partition_witness :
  let a : mpr.Deriv float := mpr.Deriv_4 (lit 3) (lit 1) (lit 0) (lit 0) in
  let b : mpr.Deriv float := mpr.Deriv_4 (lit (-2)) (lit 0) (lit 1) (lit 0) in
  is_nan (mpr.value a) = false /\ is_nan (mpr.value b) = false /\
  ((mpr.min a b = a /\ mpr.max a b = b) \/
   (mpr.min a b = b /\ mpr.max a b = a)).
Proof.
  intros a b.
  assert (Ha : is_nan (mpr.value a) = false) by reflexivity.
  assert (Hb : is_nan (mpr.value b) = false) by reflexivity.
  exact (conj Ha (conj Hb (proj2 (min_max_partition a b) Ha Hb))).
Defined.

(** X17. [min] and [max] are commutative when the values are numbers
    that are not [==]; at a tie they are not: [min (b, a)] is [a] and
    [max (b, a)] is [b]. *)
Theorem min_max_commute_off_ties (a b : mpr.Deriv float) :
  (is_nan (mpr.value a) = false -> is_nan (mpr.value b) = false ->
   eqb (mpr.value a) (mpr.value b) = false ->
   mpr.min a b = mpr.min b a /\ mpr.max a b = mpr.max b a) /\
  (eqb (mpr.value a) (mpr.value b) = true ->
   mpr.min b a = a /\ mpr.max b a = b).
Proof.
  split.
  - intros Ha Hb Hne. destruct (neq_ltb _ _ Ha Hb Hne) as (Hlt & Hge & Hle).
    unfold mpr.min, mpr.max. cbn [flt fge arith].
    rewrite Hge, Hle, Hlt.
    now destruct (SFltb (mpr.value a) (mpr.value b)).
  - intro H. assert (H' : eqb (mpr.value b) (mpr.value a) = true)
      by now rewrite eqb_sym.
    unfold mpr.min, mpr.max. cbn [flt fge arith].
    now rewrite (eqb_ltb_false _ _ H'), (eqb_geb _ _ H').
Qed.

Lemma min_max_commute_off_ties_witness :
  let a : mpr.Deriv float := mpr.Deriv_4 (lit 3) (lit 1) (lit 0) (lit 0) in
  let b : mpr.Deriv float := mpr.Deriv_4 (lit (-2)) (lit 0) (lit 1) (lit 0) in
  let c : mpr.Deriv float := mpr.Deriv_4 (lit 3) (lit 0) (lit 0) (lit 1) in
  (is_nan (mpr.value a) = false /\ is_nan (mpr.value b) = false /\
   eqb (mpr.value a) (mpr.value b) = false /\
   mpr.min a b = mpr.min b a /\ mpr.max a b = mpr.max b a) /\
  (eqb (mpr.value a) (mpr.value c) = true /\
   mpr.min c a = a /\ mpr.max c a = c).
Proof.
  intros a b c.
  assert (Ha : is_nan (mpr.value a) = false) by reflexivity.
  assert (Hb : is_nan (mpr.value b) = false) by reflexivity.
  assert (Hne : eqb (mpr.value a) (mpr.value b) = false) by reflexivity.
  assert (He : eqb (mpr.value a) (mpr.value c) = true) by reflexivity.
  exact (conj
    (conj Ha (conj Hb (conj Hne
       (proj1 (min_max_commute_off_ties a b) Ha Hb Hne))))
    (conj He (proj2 (min_max_commute_off_ties a c) He))).
Defined.

(** X18. A NaN in the value of either operand gives a NaN value to
    [a + b] and [a - b], and a NaN in all four components of [a * b] and
    [a / b], whatever the math library returns. *)
Theorem nan_value_propagates (L : Libm float) (a b : mpr.Deriv float) :
  is_nan (mpr.value a) = true \/ is_nan (mpr.value b) = true ->
  is_nan (mpr.value (mpr.operator_add a b)) = true /\
  is_nan (mpr.value (mpr.operator_sub a b)) = true /\
  components is_nan (mpr.operator_mul a b) /\
  components is_nan (mpr.operator_div a b).
Proof.
  intro H.
  split; [now apply add_nan |]. split; [now apply sub_nan |]. split.
  - repeat split; cbn; fold (mpr.value a) (mpr.value b);
      [now apply mul_nan | ..];
      destruct H as [H | H];
      apply add_nan; [right | left | right | left | right | left];
      apply mul_nan; auto.
  - repeat split; cbn; fold (mpr.value a) (mpr.value b);
      [now apply div_nan | ..];
      apply div_nan; left; apply sub_nan;
      destruct H as [H | H]; [right | left | right | left | right | left];
      apply mul_nan; auto.
Qed.

Lemma nan_value_propagates_witness :
  let a : mpr.Deriv float := mpr.Deriv_4 NaN (lit 1) (lit 0) (lit 0) in
  let b : mpr.Deriv float := mpr.Deriv_4 (lit 2) (lit 0) (lit 1) (lit 0) in
  (is_nan (mpr.value a) = true \/ is_nan (mpr.value b) = true) /\
  is_nan (mpr.value (mpr.operator_add a b)) = true /\
  is_nan (mpr.value (mpr.operator_sub a b)) = true /\
  components is_nan (mpr.operator_mul a b) /\
  components is_nan (mpr.operator_div (L := run_libm) a b).
Proof.
  intros a b.
  assert (H : is_nan (mpr.value a) = true \/ is_nan (mpr.value b) = true)
    by (left; reflexivity).
  exact (conj H (nan_value_propagates run_libm a b H)).
Defined.

End Algebra.

(** ** What a component of a result depends on *)

Section Dependence.

Context {float : Type} {A : Arith float} {L : Libm float}.

Ltac unfold_operators :=
  unfold mpr.operator_neg, mpr.square, mpr.abs, mpr.sqrt, mpr.atan, mpr.acos,
    mpr.asin, mpr.exp, mpr.cos, mpr.sin, mpr.log,
    mpr.operator_add, mpr.operator_mul, mpr.operator_div, mpr.min, mpr.max,
    mpr.operator_sub,
    mpr.operator_add_fD, mpr.operator_mul_fD, mpr.operator_div_fD,
    mpr.min_fD, mpr.max_fD, mpr.operator_sub_fD,
    mpr.operator_add_Df, mpr.operator_mul_Df, mpr.operator_div_Df,
    mpr.min_Df, mpr.max_Df, mpr.operator_sub_Df, mpr.operator_neg.

Ltac each_operator H :=
  cbn [In unary_operators binary_operators Df_operators fD_operators] in H;
  repeat (destruct H as [<- | H]); [.. | contradiction].

(** Rewrite the operands' equal components, decide the branch, read the
    component. *)
Ltac same_result :=
  unfold_operators;
  repeat match goal with
  | E : mpr.value _ = mpr.value _ |- _ => rewrite E
  | E : mpr.dx _ = mpr.dx _ |- _ => rewrite E
  | E : mpr.dy _ = mpr.dy _ |- _ => rewrite E
  | E : mpr.dz _ = mpr.dz _ |- _ => rewrite E
  end;
  repeat match goal with
  | |- context [if ?c then _ else _] => destruct c
  end;
  cbn [mpr.value mpr.dx mpr.dy mpr.dz mpr.Deriv_4 mpr.Deriv_1
       mpr.v mpr.x mpr.y mpr.z mpr.w];
  try reflexivity; try assumption.


(** X20. The axes do not mix: the partial derivative of a result along
    one axis depends only on the values of the operands and on their
    partials along that same axis, for every operator of the header. *)
Theorem axes_do_not_mix (d : mpr.Deriv float -> float) :
  accessor d ->
  (forall op a a',
     In op unary_operators -> agree d a a' -> agree d (op a) (op a')) /\
  (forall op a a' b b',
     In op binary_operators -> agree d a a' -> agree d b b' ->
     agree d (op a b) (op a' b')) /\
  (forall op a a' (c : float),
     In op Df_operators -> agree d a a' -> agree d (op a c) (op a' c)) /\
  (forall op a a' (c : float),
     In op fD_operators -> agree d a a' -> agree d (op c a) (op c a')).
Proof.
  intro Hd.
  split; [| split; [| split]].
  - intros op a a' Hop [Hv Ha].
    destruct Hd as [-> | [-> | ->]]; each_operator Hop; split; same_result.
  - intros op a a' b b' Hop [Hv Ha] [Hw Hb].
    destruct Hd as [-> | [-> | ->]]; each_operator Hop; split; same_result.
  - intros op a a' c Hop [Hv Ha].
    destruct Hd as [-> | [-> | ->]]; each_operator Hop; split; same_result.
  - intros op a a' c Hop [Hv Ha].
    destruct Hd as [-> | [-> | ->]]; each_operator Hop; split; same_result.
Qed.

End Dependence.


Lemma axes_do_not_mix_witness :
  let a : mpr.Deriv binary32.float := mpr.Deriv_4 (lit 3) (lit 1) (lit 0) (lit 0) in
  let a' : mpr.Deriv binary32.float := mpr.Deriv_4 (lit 3) (lit 1) (lit 7) (lit 2) in
  let b : mpr.Deriv binary32.float := mpr.Deriv_4 (lit 2) (lit 5) (lit 1) (lit 0) in
  accessor (float := binary32.float) mpr.dx /\
  In mpr.operator_mul (binary_operators (L := run_libm)) /\
  agree mpr.dx a a' /\
  agree mpr.dx (mpr.operator_mul a b) (mpr.operator_mul a' b).
Proof.
  intros a a' b.
  assert (Hd : accessor (float := binary32.float) mpr.dx)
    by (left; reflexivity).
  assert (Hop : In mpr.operator_mul (binary_operators (L := run_libm)))
    by (right; left; reflexivity).
  assert (Ha : agree mpr.dx a a') by (split; reflexivity).
  assert (Hb : agree mpr.dx b b) by (split; reflexivity).
  exact (conj Hd (conj Hop (conj Ha
    (proj1 (proj2 (axes_do_not_mix (L := run_libm) mpr.dx Hd))
       mpr.operator_mul a a' b b Hop Ha Hb)))).
Defined.

(** ** Forward-mode differentiation, in exact arithmetic *)

Section Differentiation.

Local Open Scope R_scope.

Lemma axis_neg (d : mpr.Deriv R -> R) (a : mpr.Deriv R) :
  axis d -> d (mpr.operator_neg a) = - d a.
Proof. intros [-> | [-> | ->]]; reflexivity. Qed.

Lemma carries_add (d : mpr.Deriv R -> R) (a b : mpr.Deriv R)
  (f g : R -> R) (t : R) :
  axis d -> carries d a f t -> carries d b g t ->
  carries d (mpr.operator_add a b) (f + g)%F t.
Proof.
  intros Hd [Ha Da] [Hb Db]. split.
  - cbn. fold (mpr.value a) (mpr.value b). unfold plus_fct.
    now rewrite Ha, Hb.
  - replace (d (mpr.operator_add a b)) with (d a + d b).
    + now apply derivable_pt_lim_plus.
    + destruct Hd as [-> | [-> | ->]]; reflexivity.
Qed.

Lemma carries_sub (d : mpr.Deriv R -> R) (a b : mpr.Deriv R)
  (f g : R -> R) (t : R) :
  axis d -> carries d a f t -> carries d b g t ->
  carries d (mpr.operator_sub a b) (f - g)%F t.
Proof.
  intros Hd [Ha Da] [Hb Db]. split.
  - cbn. fold (mpr.value a) (mpr.value b). unfold minus_fct.
    now rewrite Ha, Hb.
  - replace (d (mpr.operator_sub a b)) with (d a - d b).
    + now apply derivable_pt_lim_minus.
    + destruct Hd as [-> | [-> | ->]]; reflexivity.
Qed.

Lemma carries_neg (d : mpr.Deriv R -> R) (a : mpr.Deriv R)
  (f : R -> R) (t : R) :
  axis d -> carries d a f t ->
  carries d (mpr.operator_neg a) (- f)%F t.
Proof.
  intros Hd [Ha Da]. split.
  - cbn. fold (mpr.value a). unfold opp_fct. now rewrite Ha.
  - rewrite (axis_neg d a Hd). now apply derivable_pt_lim_opp.
Qed.

(** The chain rule at a dual that carries [g]: the result carries the
    composition. *)
Lemma chain_rule_carries (op : mpr.Deriv R -> mpr.Deriv R) (prim g : R -> R)
  (d : mpr.Deriv R -> R) (a : mpr.Deriv R) (t : R) :
  axis d -> chain_rule op prim a -> carries d a g t ->
  carries d (op a) (comp prim g) t.
Proof.
  intros Hd [Hv [k [Hk (Hx & Hy & Hz)]]] [Ha Da]. split.
  - unfold comp. now rewrite Hv, Ha.
  - replace (d (op a)) with (k * d a).
    + apply derivable_pt_lim_comp; [exact Da | now rewrite <- Ha].
    + destruct Hd as [-> | [-> | ->]]; auto.
Qed.

Lemma carries_square (d : mpr.Deriv R -> R) (a : mpr.Deriv R)
  (f : R -> R) (t : R) :
  axis d -> carries d a f t ->
  carries d (mpr.square a) (comp Rsqr f) t.
Proof.
  intros Hd [Ha Da]. split.
  - cbn. fold (mpr.value a). unfold comp, Rsqr. now rewrite Ha.
  - replace (d (mpr.square a)) with (2 * f t * d a).
    + apply derivable_pt_lim_comp; [exact Da | apply derivable_pt_lim_Rsqr].
    + rewrite <- Ha. destruct Hd as [-> | [-> | ->]]; cbn; ring.
Qed.

Lemma exact_ltb_spec (u w : R) : exact.ltb u w = true <-> u < w.
Proof. unfold exact.ltb. destruct (Rlt_dec u w); split; intro; easy. Qed.

Lemma exact_geb_spec (u w : R) : exact.geb u w = true <-> u >= w.
Proof. unfold exact.geb. destruct (Rge_dec u w); split; intro; easy. Qed.

Lemma carries_abs (d : mpr.Deriv R -> R) (a : mpr.Deriv R)
  (f : R -> R) (t : R) :
  axis d -> carries d a f t -> f t <> 0 ->
  carries d (mpr.abs a) (comp Rabs f) t.
Proof.
  intros Hd [Ha Da] Hn. unfold mpr.abs. cbn [flt lit exact.arith].
  destruct (exact.ltb (mpr.value a) 0) eqn:E.
  - apply exact_ltb_spec in E. rewrite Ha in E. split.
    + cbn. fold (mpr.value a). unfold comp. rewrite Ha, Rabs_left; lra.
    + rewrite (axis_neg d a Hd).
      replace (- d a) with (-1 * d a) by ring.
      apply derivable_pt_lim_comp; [exact Da | now apply Rabs_derive_2].
  - assert (Hp : 0 < f t).
    { destruct (Rlt_dec (f t) 0) as [Lt | Lt].
      - rewrite <- Ha in Lt. apply exact_ltb_spec in Lt. congruence.
      - lra. }
    split.
    + unfold comp. rewrite Ha, Rabs_right; lra.
    + replace (d a) with (1 * d a) by ring.
      apply derivable_pt_lim_comp; [exact Da | now apply Rabs_derive_1].
Qed.

(** Two functions continuous at [t] and ordered there are ordered on an
    interval around [t]. *)
Lemma continuous_lt_locally (f g : R -> R) (t : R) :
  continuity_pt f t -> continuity_pt g t -> f t < g t ->
  exists delta : R, 0 < delta /\
    forall u, t - delta < u < t + delta -> f u < g u.
Proof.
  intros Cf Cg Hlt.
  set (eps := (g t - f t) / 2).
  assert (Heps : eps > 0) by (unfold eps; lra).
  destruct (Cf eps Heps) as [a1 [Ha1 Pf]].
  destruct (Cg eps Heps) as [a2 [Ha2 Pg]].
  exists (Rmin a1 a2). split; [apply Rmin_pos; lra |].
  intros u Hu.
  destruct (Req_dec t u) as [<- | Hne]; [exact Hlt |].
  assert (Hd : Rabs (u - t) < Rmin a1 a2).
  { apply Rabs_def1; lra. }
  assert (H1 : Rabs (f u - f t) < eps).
  { apply Pf. split; [split; [exact I | exact Hne] |].
    eapply Rlt_le_trans; [exact Hd | apply Rmin_l]. }
  assert (H2 : Rabs (g u - g t) < eps).
  { apply Pg. split; [split; [exact I | exact Hne] |].
    eapply Rlt_le_trans; [exact Hd | apply Rmin_r]. }
  apply Rabs_def2 in H1. apply Rabs_def2 in H2. unfold eps in *. lra.
Qed.

Lemma carries_continuous (d : mpr.Deriv R -> R) (a : mpr.Deriv R)
  (f : R -> R) (t : R) : carries d a f t -> continuity_pt f t.
Proof.
  intros [_ Da]. apply derivable_continuous_pt. now exists (d a).
Qed.

Lemma min_value (a b : mpr.Deriv R) :
  mpr.value (mpr.min a b) = Rmin (mpr.value a) (mpr.value b).
Proof.
  unfold mpr.min. cbn [flt exact.arith].
  destruct (exact.ltb (mpr.value a) (mpr.value b)) eqn:E.
  - apply exact_ltb_spec in E. rewrite Rmin_left; lra.
  - destruct (Rlt_dec (mpr.value a) (mpr.value b)) as [Lt | Lt].
    + apply exact_ltb_spec in Lt. congruence.
    + rewrite Rmin_right; lra.
Qed.

Lemma max_value (a b : mpr.Deriv R) :
  mpr.value (mpr.max a b) = Rmax (mpr.value a) (mpr.value b).
Proof.
  unfold mpr.max. cbn [fge exact.arith].
  destruct (exact.geb (mpr.value a) (mpr.value b)) eqn:E.
  - apply exact_geb_spec in E. rewrite Rmax_left; lra.
  - destruct (Rge_dec (mpr.value a) (mpr.value b)) as [Ge | Ge].
    + apply exact_geb_spec in Ge. congruence.
    + rewrite Rmax_right; lra.
Qed.

Lemma carries_min (d : mpr.Deriv R -> R) (a b : mpr.Deriv R)
  (f g : R -> R) (t : R) :
  carries d a f t -> carries d b g t -> f t <> g t ->
  carries d (mpr.min a b) (fun u => Rmin (f u) (g u)) t.
Proof.
  intros Ca Cb Hne.
  pose proof (carries_continuous _ _ _ _ Ca) as Cf.
  pose proof (carries_continuous _ _ _ _ Cb) as Cg.
  destruct Ca as [Ha Da], Cb as [Hb Db].
  split; [now rewrite min_value, Ha, Hb |].
  unfold mpr.min. cbn [flt exact.arith].
  destruct (exact.ltb (mpr.value a) (mpr.value b)) eqn:E.
  - apply exact_ltb_spec in E. rewrite Ha, Hb in E.
    destruct (continuous_lt_locally f g t Cf Cg E) as [dl [Hdl Hloc]].
    apply (derivable_pt_lim_locally_ext f _ t (t - dl) (t + dl));
      [lra | | exact Da].
    intros u Hu. specialize (Hloc u Hu). rewrite Rmin_left; lra.
  - assert (Hgt : g t < f t).
    { destruct (Rlt_dec (f t) (g t)) as [Lt | Lt].
      - rewrite <- Ha, <- Hb in Lt. apply exact_ltb_spec in Lt. congruence.
      - lra. }
    destruct (continuous_lt_locally g f t Cg Cf Hgt) as [dl [Hdl Hloc]].
    apply (derivable_pt_lim_locally_ext g _ t (t - dl) (t + dl));
      [lra | | exact Db].
    intros u Hu. specialize (Hloc u Hu). rewrite Rmin_right; lra.
Qed.

Lemma carries_max (d : mpr.Deriv R -> R) (a b : mpr.Deriv R)
  (f g : R -> R) (t : R) :
  carries d a f t -> carries d b g t -> f t <> g t ->
  carries d (mpr.max a b) (fun u => Rmax (f u) (g u)) t.
Proof.
  intros Ca Cb Hne.
  pose proof (carries_continuous _ _ _ _ Ca) as Cf.
  pose proof (carries_continuous _ _ _ _ Cb) as Cg.
  destruct Ca as [Ha Da], Cb as [Hb Db].
  split; [now rewrite max_value, Ha, Hb |].
  unfold mpr.max. cbn [fge exact.arith].
  destruct (exact.geb (mpr.value a) (mpr.value b)) eqn:E.
  - apply exact_geb_spec in E. rewrite Ha, Hb in E.
    assert (Hgt : g t < f t) by lra.
    destruct (continuous_lt_locally g f t Cg Cf Hgt) as [dl [Hdl Hloc]].
    apply (derivable_pt_lim_locally_ext f _ t (t - dl) (t + dl));
      [lra | | exact Da].
    intros u Hu. specialize (Hloc u Hu). rewrite Rmax_left; lra.
  - assert (Hlt : f t < g t).
    { destruct (Rge_dec (f t) (g t)) as [Ge | Ge].
      - rewrite <- Ha, <- Hb in Ge. apply exact_geb_spec in Ge. congruence.
      - lra. }
    destruct (continuous_lt_locally f g t Cf Cg Hlt) as [dl [Hdl Hloc]].
    apply (derivable_pt_lim_locally_ext g _ t (t - dl) (t + dl));
      [lra | | exact Db].
    intros u Hu. specialize (Hloc u Hu). rewrite Rmax_right; lra.
Qed.

Lemma exact_promote_div_Df (a : mpr.Deriv R) (b : R) :
  b <> 0 -> mpr.operator_div_Df a b = mpr.operator_div a (mpr.Deriv_1 b).
Proof.
  intro Hb. unfold mpr.operator_div_Df, mpr.operator_div.
  cbn [mpr.value mpr.dx mpr.dy mpr.dz mpr.Deriv_1
       mpr.v mpr.x mpr.y mpr.z mpr.w
       fdiv fsub fmul lit powf exact.arith exact.libm].
  rewrite pow_two. f_equal; field; exact Hb.
Qed.

Lemma carries_constant (d : mpr.Deriv R -> R) (c t : R) :
  axis d -> carries d (mpr.Deriv_1 c) (fct_cte c) t.
Proof.
  intro Hd. split; [reflexivity |].
  replace (d (mpr.Deriv_1 c)) with 0
    by (destruct Hd as [-> | [-> | ->]]; reflexivity).
  apply derivable_pt_lim_const.
Qed.

End Differentiation.

Section Soundness.

Local Open Scope R_scope.

(** X1. In exact arithmetic, along each axis: when [a] carries the
    derivative of [f] and [b] that of [g], then [a + b] carries the
    derivative of [f + g], [a - b] that of [f - g], and [-a] that of
    [-f]. *)
Theorem linear_operators_carry (d : mpr.Deriv R -> R) (a b : mpr.Deriv R)
  (f g : R -> R) (t : R) :
  axis d -> carries d a f t -> carries d b g t ->
  carries d (mpr.operator_add a b) (f + g)%F t /\
  carries d (mpr.operator_sub a b) (f - g)%F t /\
  carries d (mpr.operator_neg a) (- f)%F t.
Proof.
  intros Hd Ha Hb.
  exact (conj (carries_add d a b f g t Hd Ha Hb)
          (conj (carries_sub d a b f g t Hd Ha Hb)
                (carries_neg d a f t Hd Ha))).
Qed.

Lemma linear_operators_carry_witness :
  let a : mpr.Deriv R := mpr.Deriv_4 (1 / 2) 1 0 0 in
  let b : mpr.Deriv R := mpr.Deriv_1 2 in
  axis mpr.dx /\ carries mpr.dx a id (1 / 2) /\
  carries mpr.dx b (fct_cte 2) (1 / 2) /\
  carries mpr.dx (mpr.operator_add a b) (id + fct_cte 2)%F (1 / 2) /\
  carries mpr.dx (mpr.operator_sub a b) (id - fct_cte 2)%F (1 / 2) /\
  carries mpr.dx (mpr.operator_neg a) (- id)%F (1 / 2).
Proof.
  intros a b.
  assert (Hd : axis mpr.dx) by (left; reflexivity).
  assert (Ha : carries mpr.dx a id (1 / 2))
    by (split; [reflexivity | apply derivable_pt_lim_id]).
  assert (Hb : carries mpr.dx b (fct_cte 2) (1 / 2))
    by (split; [reflexivity | apply derivable_pt_lim_const]).
  exact (conj Hd (conj Ha (conj Hb
    (linear_operators_carry mpr.dx a b id (fct_cte 2) (1 / 2) Hd Ha Hb)))).
Defined.

(** X2. In exact arithmetic, along each axis: when [a] carries the
    derivative of [g], then [sin (a)], [cos (a)], [exp (a)] and
    [atan (a)] carry the derivative of the primitive composed with [g];
    so do [sqrt (a)] and [log (a)] where [g] is positive, and [asin (a)]
    and [acos (a)] where [g] is strictly between -1 and 1. *)
Theorem transcendentals_carry_composition (d : mpr.Deriv R -> R)
  (a : mpr.Deriv R) (g : R -> R) (t : R) :
  axis d -> carries d a g t ->
  carries d (mpr.sin a) (comp sin g) t /\
  carries d (mpr.cos a) (comp cos g) t /\
  carries d (mpr.exp a) (comp exp g) t /\
  carries d (mpr.atan a) (comp atan g) t /\
  (0 < g t ->
   carries d (mpr.sqrt a) (comp sqrt g) t /\
   carries d (mpr.log a) (comp ln g) t) /\
  (-1 < g t < 1 ->
   carries d (mpr.asin a) (comp asin g) t /\
   carries d (mpr.acos a) (comp acos g) t).
Proof.
  intros Hd Ha.
  pose proof (proj1 Ha) as Hv.
  refine (conj (chain_rule_carries _ _ g d a t Hd (chain_sin a) Ha)
         (conj (chain_rule_carries _ _ g d a t Hd (chain_cos a) Ha)
         (conj (chain_rule_carries _ _ g d a t Hd (chain_exp a) Ha)
         (conj (chain_rule_carries _ _ g d a t Hd (chain_atan a) Ha)
         (conj _ _))))).
  - intro Hp. rewrite <- Hv in Hp.
    exact (conj (chain_rule_carries _ _ g d a t Hd (chain_sqrt a Hp) Ha)
                (chain_rule_carries _ _ g d a t Hd (chain_log a Hp) Ha)).
  - intro Hp. rewrite <- Hv in Hp.
    exact (conj (chain_rule_carries _ _ g d a t Hd (chain_asin a Hp) Ha)
                (chain_rule_carries _ _ g d a t Hd (chain_acos a Hp) Ha)).
Qed.

Lemma transcendentals_carry_composition_witness :
  let a : mpr.Deriv R := mpr.Deriv_4 (1 / 2) 1 0 0 in
  axis mpr.dx /\ carries mpr.dx a id (1 / 2) /\
  0 < id (1 / 2) /\ -1 < id (1 / 2) < 1 /\
  carries mpr.dx (mpr.sin a) (comp sin id) (1 / 2) /\
  carries mpr.dx (mpr.sqrt a) (comp sqrt id) (1 / 2) /\
  carries mpr.dx (mpr.log a) (comp ln id) (1 / 2) /\
  carries mpr.dx (mpr.asin a) (comp asin id) (1 / 2) /\
  carries mpr.dx (mpr.acos a) (comp acos id) (1 / 2).
Proof.
  intro a.
  assert (Hd : axis mpr.dx) by (left; reflexivity).
  assert (Ha : carries mpr.dx a id (1 / 2))
    by (split; [reflexivity | apply derivable_pt_lim_id]).
  assert (H0 : 0 < id (1 / 2)) by (unfold id; lra).
  assert (H1 : -1 < id (1 / 2) < 1) by (unfold id; lra).
  destruct (transcendentals_carry_composition mpr.dx a id (1 / 2) Hd Ha)
    as (Hsin & _ & _ & _ & Hpos & Hunit).
  destruct (Hpos H0) as [Hsqrt Hlog]. destruct (Hunit H1) as [Hasin Hacos].
  exact (conj Hd (conj Ha (conj H0 (conj H1 (conj Hsin (conj Hsqrt
          (conj Hlog (conj Hasin Hacos)))))))).
Defined.

(** X3. In exact arithmetic, along each axis: when [a] carries the
    derivative of [f], [square (a)] carries the derivative of the square
    of [f], and [abs (a)] that of the absolute value of [f] where [f] is
    not zero. *)
Theorem square_and_abs_carry (d : mpr.Deriv R -> R) (a : mpr.Deriv R)
  (f : R -> R) (t : R) :
  axis d -> carries d a f t ->
  carries d (mpr.square a) (comp Rsqr f) t /\
  (f t <> 0 -> carries d (mpr.abs a) (comp Rabs f) t).
Proof.
  intros Hd Ha.
  exact (conj (carries_square d a f t Hd Ha) (carries_abs d a f t Hd Ha)).
Qed.

Lemma square_and_abs_carry_witness :
  let a : mpr.Deriv R := mpr.Deriv_4 (- (1 / 2)) 1 0 0 in
  axis mpr.dx /\ carries mpr.dx a id (- (1 / 2)) /\ id (- (1 / 2)) <> 0 /\
  carries mpr.dx (mpr.square a) (comp Rsqr id) (- (1 / 2)) /\
  carries mpr.dx (mpr.abs a) (comp Rabs id) (- (1 / 2)).
Proof.
  intro a.
  assert (Hd : axis mpr.dx) by (left; reflexivity).
  assert (Ha : carries mpr.dx a id (- (1 / 2)))
    by (split; [reflexivity | apply derivable_pt_lim_id]).
  assert (Hn : id (- (1 / 2)) <> 0) by (unfold id; lra).
  destruct (square_and_abs_carry mpr.dx a id (- (1 / 2)) Hd Ha) as [Hs Habs].
  exact (conj Hd (conj Ha (conj Hn (conj Hs (Habs Hn))))).
Defined.

(** X4. In exact arithmetic the value of [min (a, b)] is the minimum of
    the two values and that of [max (a, b)] the maximum, ties included.
    Along each axis, when [a] carries the derivative of [f] and [b] that
    of [g], and [f] and [g] differ at the point, [min (a, b)] carries the
    derivative of the pointwise minimum of [f] and [g] and [max (a, b)]
    that of their pointwise maximum. *)
Theorem min_max_carry_off_ties (d : mpr.Deriv R -> R) (a b : mpr.Deriv R)
  (f g : R -> R) (t : R) :
  (mpr.value (mpr.min a b) = Rmin (mpr.value a) (mpr.value b) /\
   mpr.value (mpr.max a b) = Rmax (mpr.value a) (mpr.value b)) /\
  (carries d a f t -> carries d b g t -> f t <> g t ->
   carries d (mpr.min a b) (fun u => Rmin (f u) (g u)) t /\
   carries d (mpr.max a b) (fun u => Rmax (f u) (g u)) t).
Proof.
  split; [exact (conj (min_value a b) (max_value a b)) |].
  intros Ha Hb Hne.
  exact (conj (carries_min d a b f g t Ha Hb Hne)
              (carries_max d a b f g t Ha Hb Hne)).
Qed.

Lemma min_max_carry_off_ties_witness :
  let a : mpr.Deriv R := mpr.Deriv_4 (1 / 2) 1 0 0 in
  let b : mpr.Deriv R := mpr.Deriv_1 2 in
  carries mpr.dx a id (1 / 2) /\ carries mpr.dx b (fct_cte 2) (1 / 2) /\
  id (1 / 2) <> fct_cte 2 (1 / 2) /\
  carries mpr.dx (mpr.min a b) (fun u => Rmin (id u) (fct_cte 2 u)) (1 / 2) /\
  carries mpr.dx (mpr.max a b) (fun u => Rmax (id u) (fct_cte 2 u)) (1 / 2).
Proof.
  intros a b.
  assert (Ha : carries mpr.dx a id (1 / 2))
    by (split; [reflexivity | apply derivable_pt_lim_id]).
  assert (Hb : carries mpr.dx b (fct_cte 2) (1 / 2))
    by (split; [reflexivity | apply derivable_pt_lim_const]).
  assert (Hn : id (1 / 2) <> fct_cte 2 (1 / 2))
    by (unfold id, fct_cte; lra).
  exact (conj Ha (conj Hb (conj Hn
    (proj2 (min_max_carry_off_ties mpr.dx a b id (fct_cte 2) (1 / 2))
       Ha Hb Hn)))).
Defined.

(** X5. In exact arithmetic every mixed arithmetic overload is the
    operator on duals applied to the promoted [float], in the same
    operand order: [a + b], [b + a], [a - b], [b - a], [a * b], [b * a]
    and [b / a] for every operand, and [a / b] when [b] is not zero. *)
Theorem exact_promotion (a : mpr.Deriv R) (b : R) :
  mpr.operator_add_Df a b = mpr.operator_add a (mpr.Deriv_1 b) /\
  mpr.operator_add_fD b a = mpr.operator_add (mpr.Deriv_1 b) a /\
  mpr.operator_sub_Df a b = mpr.operator_sub a (mpr.Deriv_1 b) /\
  mpr.operator_sub_fD b a = mpr.operator_sub (mpr.Deriv_1 b) a /\
  mpr.operator_mul_Df a b = mpr.operator_mul a (mpr.Deriv_1 b) /\
  mpr.operator_mul_fD b a = mpr.operator_mul (mpr.Deriv_1 b) a /\
  mpr.operator_div_fD b a = mpr.operator_div (mpr.Deriv_1 b) a /\
  (b <> 0 -> mpr.operator_div_Df a b = mpr.operator_div a (mpr.Deriv_1 b)).
Proof.
  assert (Hring : forall v1 v2 x1 x2 y1 y2 z1 z2 : R,
            v1 = v2 -> x1 = x2 -> y1 = y2 -> z1 = z2 ->
            @mpr.Deriv_4 R v1 x1 y1 z1 = mpr.Deriv_4 v2 x2 y2 z2)
    by (intros; subst; reflexivity).
  repeat match goal with |- _ /\ _ => split end;
    try apply exact_promote_div_Df;
    unfold mpr.operator_add_Df, mpr.operator_add_fD, mpr.operator_add,
      mpr.operator_sub_Df, mpr.operator_sub_fD, mpr.operator_sub,
      mpr.operator_mul_Df, mpr.operator_mul_fD, mpr.operator_mul,
      mpr.operator_div_fD, mpr.operator_div;
    apply Hring;
    cbn [mpr.value mpr.dx mpr.dy mpr.dz mpr.Deriv_1
         mpr.v mpr.x mpr.y mpr.z mpr.w
         fadd fdiv fsub fmul fneg lit powf exact.arith exact.libm];
    unfold Rdiv; ring.
Qed.

Lemma exact_promotion_witness :
  let a : mpr.Deriv R := mpr.Deriv_4 (1 / 2) 1 0 0 in
  2 <> 0 /\ mpr.operator_div_Df a 2 = mpr.operator_div a (mpr.Deriv_1 2).
Proof.
  intro a.
  assert (H : 2 <> 0) by lra.
  destruct (exact_promotion a 2) as (_ & _ & _ & _ & _ & _ & _ & Hdiv).
  exact (conj H (Hdiv H)).
Defined.

(** X6. In exact arithmetic, along each axis: when [a] carries the
    derivative of [f] and [c] is a [float], the mixed overloads carry the
    derivatives of [f + c], [c + f], [f - c], [c - f], [f * c], [c * f],
    of [f / c] when [c] is not zero, and of [c / f] where [f] is not
    zero. *)
Theorem scalar_overloads_carry (d : mpr.Deriv R -> R) (a : mpr.Deriv R)
  (f : R -> R) (c t : R) :
  axis d -> carries d a f t ->
  carries d (mpr.operator_add_Df a c) (f + fct_cte c)%F t /\
  carries d (mpr.operator_add_fD c a) (fct_cte c + f)%F t /\
  carries d (mpr.operator_sub_Df a c) (f - fct_cte c)%F t /\
  carries d (mpr.operator_sub_fD c a) (fct_cte c - f)%F t /\
  carries d (mpr.operator_mul_Df a c) (f * fct_cte c)%F t /\
  carries d (mpr.operator_mul_fD c a) (fct_cte c * f)%F t /\
  (c <> 0 -> carries d (mpr.operator_div_Df a c) (f / fct_cte c)%F t) /\
  (f t <> 0 -> carries d (mpr.operator_div_fD c a) (fct_cte c / f)%F t).
Proof.
  intros Hd Ha.
  pose proof (carries_constant d c t Hd) as Hc.
  assert (E1 : mpr.operator_add_Df a c = mpr.operator_add a (mpr.Deriv_1 c)).
  { unfold mpr.operator_add_Df, mpr.operator_add. cbn. f_equal; ring. }
  assert (E2 : mpr.operator_add_fD c a = mpr.operator_add (mpr.Deriv_1 c) a).
  { unfold mpr.operator_add_fD, mpr.operator_add_Df, mpr.operator_add.
    cbn. f_equal; ring. }
  assert (E3 : mpr.operator_sub_Df a c = mpr.operator_sub a (mpr.Deriv_1 c)).
  { unfold mpr.operator_sub_Df, mpr.operator_sub. cbn. f_equal; ring. }
  assert (E4 : mpr.operator_sub_fD c a = mpr.operator_sub (mpr.Deriv_1 c) a).
  { unfold mpr.operator_sub_fD, mpr.operator_sub. cbn. f_equal; ring. }
  assert (E5 : mpr.operator_mul_Df a c = mpr.operator_mul a (mpr.Deriv_1 c)).
  { unfold mpr.operator_mul_Df, mpr.operator_mul. cbn. f_equal; ring. }
  assert (E6 : mpr.operator_mul_fD c a = mpr.operator_mul (mpr.Deriv_1 c) a).
  { unfold mpr.operator_mul_fD, mpr.operator_mul_Df, mpr.operator_mul.
    cbn. f_equal; ring. }
  assert (E7 : mpr.operator_div_fD c a = mpr.operator_div (mpr.Deriv_1 c) a).
  { unfold mpr.operator_div_fD, mpr.operator_div.
    cbn [mpr.value mpr.dx mpr.dy mpr.dz mpr.Deriv_1
         mpr.v mpr.x mpr.y mpr.z mpr.w
         fdiv fsub fmul fneg lit powf exact.arith exact.libm].
    f_equal; unfold Rdiv; ring. }
  rewrite E1, E2, E3, E4, E5, E6, E7.
  refine (conj (carries_add d _ _ _ _ t Hd Ha Hc)
         (conj (carries_add d _ _ _ _ t Hd Hc Ha)
         (conj (carries_sub d _ _ _ _ t Hd Ha Hc)
         (conj (carries_sub d _ _ _ _ t Hd Hc Ha)
         (conj (carries_mul d _ _ _ _ t Hd Ha Hc)
         (conj (carries_mul d _ _ _ _ t Hd Hc Ha)
         (conj _ _))))))).
  - intro Hn. rewrite (exact_promote_div_Df a c Hn). now apply carries_div.
  - intro Hn. now apply carries_div.
Qed.

Lemma scalar_overloads_carry_witness :
  let a : mpr.Deriv R := mpr.Deriv_4 (1 / 2) 1 0 0 in
  axis mpr.dx /\ carries mpr.dx a id (1 / 2) /\ 2 <> 0 /\ id (1 / 2) <> 0 /\
  carries mpr.dx (mpr.operator_div_Df a 2) (id / fct_cte 2)%F (1 / 2) /\
  carries mpr.dx (mpr.operator_div_fD 2 a) (fct_cte 2 / id)%F (1 / 2).
Proof.
  intro a.
  assert (Hd : axis mpr.dx) by (left; reflexivity).
  assert (Ha : carries mpr.dx a id (1 / 2))
    by (split; [reflexivity | apply derivable_pt_lim_id]).
  assert (Hc : 2 <> 0) by lra.
  assert (Hn : id (1 / 2) <> 0) by (unfold id; lra).
  destruct (scalar_overloads_carry mpr.dx a id 2 (1 / 2) Hd Ha)
    as (_ & _ & _ & _ & _ & _ & H1 & H2).
  exact (conj Hd (conj Ha (conj Hc (conj Hn (conj (H1 Hc) (H2 Hn)))))).
Defined.

(** X7. In exact arithmetic the leaves carry what they stand for:
    [Deriv (c)] carries the derivative of the constant [c] along every
    axis, and a dual built by the four-argument constructor with a unit
    partial along one axis carries the derivative of the identity along
    that axis and that of a constant along the other two. *)
Theorem leaves_carry (c p t : R) :
  (forall d, axis d -> carries d (mpr.Deriv_1 c) (fct_cte c) t) /\
  (carries mpr.dx (mpr.Deriv_4 p 1 0 0) id p /\
   carries mpr.dy (mpr.Deriv_4 p 1 0 0) (fct_cte p) t /\
   carries mpr.dz (mpr.Deriv_4 p 1 0 0) (fct_cte p) t) /\
  (carries mpr.dx (mpr.Deriv_4 p 0 1 0) (fct_cte p) t /\
   carries mpr.dy (mpr.Deriv_4 p 0 1 0) id p /\
   carries mpr.dz (mpr.Deriv_4 p 0 1 0) (fct_cte p) t) /\
  (carries mpr.dx (mpr.Deriv_4 p 0 0 1) (fct_cte p) t /\
   carries mpr.dy (mpr.Deriv_4 p 0 0 1) (fct_cte p) t /\
   carries mpr.dz (mpr.Deriv_4 p 0 0 1) id p).
Proof.
  split; [intros d Hd; now apply carries_constant |].
  repeat split; try reflexivity;
    try apply derivable_pt_lim_id; apply derivable_pt_lim_const.
Qed.

Lemma leaves_carry_witness :
  axis mpr.dy /\ carries mpr.dy (mpr.Deriv_1 2) (fct_cte 2) (1 / 2).
Proof.
  assert (Hd : axis mpr.dy) by (right; left; reflexivity).
  exact (conj Hd (proj1 (leaves_carry 2 0 (1 / 2)) mpr.dy Hd)).
Defined.

End Soundness.
